(** * ButtonModel (notebooks/agentpy_button_network.ipynb)

    A shallow embedding of the notebook's [ButtonModel] class together with
    the library calls it makes (Python arithmetic, networkx's [Graph] and
    [connected_components], agentpy's [AgentList.random] and the
    setup / update / step schedule of [Model.run]).

    The libraries are those the notebook was written for (agentpy 0.1,
    networkx 2): [ap.Network(model)] wraps an undirected [networkx.Graph],
    [AgentList.random(n)] samples without replacement, and
    [connected_components] runs one breadth-first search per cluster.

    Integers are unbounded ([Z]); a [float] is a binary64 number of
    [SpecFloat], so the loop bound [int(n * speed)] is computed bit for
    bit. The two recorded ratios are kept as exact rationals. The random
    generator is a function from the index of a draw to its outcome, so
    that "for every sequence of draws" is "for every generator". *)

From Stdlib Require Import ZArith QArith Qround Lia SpecFloat.
From stdpp Require Import base option list relations gmap sets.

Local Open Scope Z_scope.

(** ** Python values and arithmetic *)

Module Py.

(** The exceptions the modelled calls can raise. *)
Inductive exn := ValueError | OverflowError | ZeroDivisionError.

Inductive result (A : Type) :=
| Ok (a : A)
| Raise (e : exn).
Arguments Ok {A} a.
Arguments Raise {A} e.

Definition bind {A B} (x : result A) (f : A -> result B) : result B :=
  match x with
  | Ok a => f a
  | Raise e => Raise e
  end.

(** A parameter value is an [int] (unbounded) or a [float] (binary64). *)
Inductive number :=
| Int (z : Z)
| Float (f : spec_float).

Definition prec : Z := 53.
Definition emax : Z := 1024.

(** [float(z)] as done by the mixed product [int * float]: the nearest
    binary64 (ties to even), [OverflowError] when [z] is out of range. *)
Definition float_of_int (z : Z) : result spec_float :=
  match binary_normalize prec emax z 0 false with
  | S754_infinity _ => Raise OverflowError
  | f => Ok f
  end.

(** [x * y] for an [int] left operand, as in [self.p.n * self.p.speed]. *)
Definition mul_int (x : Z) (y : number) : result number :=
  match y with
  | Int z => Ok (Int (x * z))
  | Float f =>
      bind (float_of_int x) (fun fx => Ok (Float (SFmul prec emax fx f)))
  end.

(** The integer [m * 2^e] truncated towards zero. *)
Definition trunc_mantissa (m : positive) (e : Z) : Z :=
  match e with
  | Zneg p => Zpos m / 2 ^ Zpos p
  | _ => Zpos m * 2 ^ e
  end.

(** [int(x)]: truncation towards zero; infinities and NaN raise. *)
Definition int (x : number) : result Z :=
  match x with
  | Int z => Ok z
  | Float (S754_zero _) => Ok 0
  | Float (S754_infinity _) => Raise OverflowError
  | Float S754_nan => Raise ValueError
  | Float (S754_finite s m e) => Ok (cond_Zopp s (trunc_mantissa m e))
  end.

(** The number of iterations of [for _ in range(m)]. *)
Definition range (m : Z) : nat := Z.to_nat m.

(** The rational a number denotes; infinities and NaN denote none. *)
Definition value (x : number) : option Q :=
  match x with
  | Int z => Some (inject_Z z)
  | Float (S754_zero _) => Some 0%Q
  | Float (S754_finite s m e) =>
      Some match e with
           | Zneg p => (inject_Z (cond_Zopp s (Zpos m)) / inject_Z (2 ^ Zpos p))%Q
           | _ => inject_Z (cond_Zopp s (Zpos m) * 2 ^ e)
           end
  | Float _ => None
  end.

(** [x >= 0] as Python evaluates it ([-0.0 >= 0] holds, [nan >= 0] does not). *)
Definition nonneg (x : number) : bool :=
  match x with
  | Int z => 0 <=? z
  | Float (S754_zero _) => true
  | Float (S754_infinity s) => negb s
  | Float S754_nan => false
  | Float (S754_finite s _ _) => negb s
  end.

(** [a / b] on two [int]s.  Python returns the binary64 nearest to the
    quotient; the model keeps the quotient itself, so that equalities and
    inequalities between recorded values are those of the exact ratios. *)
Definition truediv (a b : Z) : result Q :=
  if b =? 0 then Raise ZeroDivisionError
  else Ok (inject_Z a / inject_Z b)%Q.

(** [max(l)] on a list of [int]s; an empty list raises [ValueError]. *)
Definition max (l : list Z) : result Z :=
  match l with
  | [] => Raise ValueError
  | x :: l' => Ok (foldl Z.max x l')
  end.

(** The binary64 literals used below. *)
Definition half : spec_float := S754_finite false 4503599627370496 (-53).
Definition third : spec_float := S754_finite false 6004799503160661 (-54).

End Py.

#[global] Instance result_ret : MRet Py.result := @Py.Ok.
#[global] Instance result_bind : MBind Py.result := fun A B f x => Py.bind x f.

(** ** networkx: [Graph], [add_edge], [connected_components] *)

Module Nx.

(** An undirected [networkx.Graph]: the nodes in insertion order and the
    adjacency [_adj].  Edge attribute dictionaries are always empty here, so
    [_adj[u]] is kept as the set of neighbours of [u]. *)
Record Graph := {
  nodes : list nat;
  adj : gmap nat (gset nat)
}.

Definition empty : Graph := {| nodes := []; adj := ∅ |}.

(** [G.add_node(u)]: a node already present is left alone. *)
Definition add_node (G : Graph) (u : nat) : Graph :=
  match adj G !! u with
  | Some _ => G
  | None => {| nodes := nodes G ++ [u]; adj := <[u := ∅]> (adj G) |}
  end.

(** [G._adj[u]]. *)
Definition neighbors (G : Graph) (u : nat) : gset nat :=
  default ∅ (adj G !! u).

(** [G.add_edge(u, v)]: both endpoints are added when missing, then
    [_adj[u][v]] and [_adj[v][u]] are set. An edge already present is
    overwritten by itself: [Graph] keeps no parallel edges. *)
Definition add_edge (G : Graph) (u v : nat) : Graph :=
  let G1 := add_node (add_node G u) v in
  let a1 := <[u := neighbors G1 u ∪ {[v]}]> (adj G1) in
  let a2 := <[v := default ∅ (a1 !! v) ∪ {[u]}]> a1 in
  {| nodes := nodes G1; adj := a2 |}.

(** [G.degree(u)]: a self-loop counts twice. *)
Definition degree (G : Graph) (u : nat) : nat :=
  (size (neighbors G u) + (if decide (u ∈ neighbors G u) then 1 else 0))%nat.

(** [G.number_of_edges()]: half the sum of the degrees. *)
Definition number_of_edges (G : Graph) : nat :=
  (foldr (fun u acc => degree G u + acc) 0 (nodes G) / 2)%nat.

Definition has_edge (G : Graph) (u v : nat) : bool :=
  bool_decide (v ∈ neighbors G u).

(** The nodes adjacent to some node of [S]. *)
Definition frontier (G : Graph) (S : gset nat) : gset nat :=
  set_bind (neighbors G) S.

(** The [while nextlevel:] loop of [_plain_bfs]: every node of the level
    not seen before is marked and contributes its neighbours to the next
    level. [fuel] bounds the number of levels. *)
Fixpoint plain_bfs_loop (fuel : nat) (G : Graph) (seen nextlevel : gset nat)
  : gset nat :=
  match fuel with
  | O => seen
  | S fuel' =>
      if decide (nextlevel = ∅) then seen
      else
        let fresh := nextlevel ∖ seen in
        plain_bfs_loop fuel' G (seen ∪ fresh) (frontier G fresh)
  end.

(** [_plain_bfs(G, source)]: one level per node at most, plus the last,
    empty one. *)
Definition plain_bfs (G : Graph) (source : nat) : gset nat :=
  plain_bfs_loop (S (length (nodes G))) G ∅ {[source]}.

(** The [for v in G:] loop of [connected_components]. *)
Fixpoint components_loop (G : Graph) (vs : list nat) (seen : gset nat)
  : list (gset nat) :=
  match vs with
  | [] => []
  | v :: vs' =>
      if decide (v ∈ seen) then components_loop G vs' seen
      else
        let c := plain_bfs G v in
        c :: components_loop G vs' (seen ∪ c)
  end.

Definition connected_components (G : Graph) : list (gset nat) :=
  components_loop G (nodes G) ∅.

End Nx.

(** ** agentpy: [AgentList.random] *)

Module Ap.

(** [AgentList.random(2)] is [random.sample(agents, 2)]: two agents at
    different positions of the list, [ValueError] (here [None]) when the
    list holds fewer than two. The generator's output is the pair [e]: its
    first component selects one of the [n] positions, its second one of
    the [n - 1] remaining positions. *)
Definition sample2 {A} (l : list A) (e : nat * nat) : option (A * A) :=
  let n := length l in
  if decide (n < 2)%nat then None
  else
    let i := (e.1 mod n)%nat in
    let j0 := (e.2 mod (n - 1))%nat in
    let j := if decide (j0 < i)%nat then j0 else S j0 in
    a ← l !! i; b ← l !! j; Some (a, b).

End Ap.

(** ** The model class *)

(** [self.p]: the parameters of one run. *)
Record Params := {
  n : Z;
  speed : Py.number
}.

(** One time-step of the recorded log: the two values passed to
    [self.record] by one call of [update]. Row [i] of the log is the one of
    time-step [i]. *)
Record Row := {
  max_cluster_size : Q;
  threads_to_button : Q
}.

(** The attributes of a [ButtonModel] instance. An agent is represented by
    its [node] attribute, the label of its node in [buttons.graph];
    [random] is the model's generator and [drawn] the number of samples
    taken from it so far. *)
Record ButtonModel := {
  p : Params;
  buttons : Nx.Graph;
  agents : list nat;
  threads : Z;
  log : list Row;
  random : nat -> nat * nat;
  drawn : nat
}.

(** [Network.add_agents(agents)]: each agent gets a new node, labelled by
    the network's counter ([0], [1], ...). *)
Fixpoint add_agents (G : Nx.Graph) (label count : nat) : Nx.Graph :=
  match count with
  | O => G
  | S count' => add_agents (Nx.add_node G label) (S label) count'
  end.

(** [setup]: an empty network, [n] agents ([AgentList(model, n)] is empty
    for [n <= 0]), one new node per agent, each agent's [node] set to the
    node at its position in [buttons.nodes], and no thread. *)
Definition setup (params : Params) (gen : nat -> nat * nat) : ButtonModel :=
  let G := add_agents Nx.empty 0 (Z.to_nat (n params)) in
  {| p := params;
     buttons := G;
     agents := Nx.nodes G;
     threads := 0;
     log := [];
     random := gen;
     drawn := 0%nat |}.

(** [update]: record the share of the biggest cluster and the ratio of
    threads to buttons. [max] raises on a graph without nodes, the
    divisions on [n = 0]. *)
Definition update (m : ButtonModel) : Py.result ButtonModel :=
  let clusters := Nx.connected_components (buttons m) in
  biggest ← Py.max ((fun g => Z.of_nat (size g)) <$> clusters);
  mcs ← Py.truediv biggest (n (p m));
  ttb ← Py.truediv (threads m) (n (p m));
  mret {| p := p m;
          buttons := buttons m;
          agents := agents m;
          threads := threads m;
          log := log m ++ [{| max_cluster_size := mcs; threads_to_button := ttb |}];
          random := random m;
          drawn := drawn m |}.

(** One iteration of the loop of [step]: draw two agents, tie their
    nodes, count the thread. *)
Definition add_thread (m : ButtonModel) : Py.result ButtonModel :=
  match Ap.sample2 (agents m) (random m (drawn m)) with
  | None => Py.Raise Py.ValueError
  | Some (u, v) =>
      mret {| p := p m;
              buttons := Nx.add_edge (buttons m) u v;
              agents := agents m;
              threads := threads m + 1;
              log := log m;
              random := random m;
              drawn := S (drawn m) |}
  end.

(** [count] iterations of the loop of [step]; the first draw that raises
    ends the loop. *)
Fixpoint repeat_body (count : nat) (m : ButtonModel) : Py.result ButtonModel :=
  match count with
  | O => mret m
  | S count' => m' ← add_thread m; repeat_body count' m'
  end.

(** The loop bound [int(self.p.n * self.p.speed)]. *)
Definition loop_bound (params : Params) : Py.result Z :=
  x ← Py.mul_int (n params) (speed params); Py.int x.

(** [step]: [for _ in range(int(self.p.n * self.p.speed))]. *)
Definition step (m : ButtonModel) : Py.result ButtonModel :=
  bound ← loop_bound (p m);
  repeat_body (Py.range bound) m.

(** [Model.run]: [setup] and [update] at time 0, then [step] and [update]
    at each of the following time-steps. *)
Fixpoint sim_steps (k : nat) (m : ButtonModel) : Py.result ButtonModel :=
  match k with
  | O => mret m
  | S k' => m1 ← sim_steps k' m; m2 ← step m1; update m2
  end.

Definition run (params : Params) (gen : nat -> nat * nat) (steps : nat)
  : Py.result ButtonModel :=
  m0 ← update (setup params gen); sim_steps steps m0.

(** ** Specification vocabulary *)

(** [v] is adjacent to [u]. *)
Definition edge (G : Nx.Graph) (u v : nat) : Prop := v ∈ Nx.neighbors G u.

(** Nodes reachable along edges. *)
Definition reach (G : Nx.Graph) : relation nat := rtc (edge G).

(** The consistency networkx maintains between the node list and the
    adjacency of an undirected graph. *)
Record graph_wf (G : Nx.Graph) : Prop := {
  wf_nodup : NoDup (Nx.nodes G);
  wf_dom : ∀ u, u ∈ Nx.nodes G ↔ is_Some (Nx.adj G !! u);
  wf_closed : ∀ u v, edge G u v → v ∈ Nx.nodes G;
  wf_sym : ∀ u v, edge G u v → edge G v u
}.

(** The size of the biggest cluster, as [update] computes it. *)
Definition biggest_cluster (G : Nx.Graph) : Py.result Z :=
  Py.max ((fun g => Z.of_nat (size g)) <$> Nx.connected_components G).

(** What holds of the model's attributes at every point of a run: the
    parameters are those given, the graph is consistent, its nodes are the
    [n] nodes created by [setup], the agents point to them in order, and no
    node is tied to itself. *)
Record model_inv (params : Params) (m : ButtonModel) : Prop := {
  inv_p : p m = params;
  inv_wf : graph_wf (buttons m);
  inv_nodes : Nx.nodes (buttons m) = seq 0 (Z.to_nat (n params));
  inv_agents : agents m = seq 0 (Z.to_nat (n params));
  inv_noloop : ∀ u, ¬ edge (buttons m) u u
}.

(** The recorded shares of the biggest cluster never decrease along the
    log, and none exceeds the share of the biggest cluster of the current
    graph. *)
Record log_inv (m : ButtonModel) : Prop := {
  log_sorted : ∀ i j r1 r2, (i ≤ j)%nat →
    log m !! i = Some r1 → log m !! j = Some r2 →
    (max_cluster_size r1 <= max_cluster_size r2)%Q;
  log_bounded : ∀ r M, r ∈ log m → biggest_cluster (buttons m) = Py.Ok M →
    (max_cluster_size r <= inject_Z M / inject_Z (n (p m)))%Q
}.

(** The state after [k] time-steps of a run with [per_step] threads added
    by each step. *)
Record run_inv (params : Params) (gen : nat → nat * nat) (per_step : Z)
    (k : nat) (m : ButtonModel) : Prop := {
  run_model : model_inv params m;
  run_random : random m = gen;
  run_threads : threads m = Z.of_nat k * per_step;
  run_drawn : Z.of_nat (drawn m) = Z.of_nat k * per_step;
  run_length : length (log m) = S k;
  run_log : log_inv m;
  run_ratio : ∀ i r, log m !! i = Some r →
    threads_to_button r = (inject_Z (Z.of_nat i * per_step) / inject_Z (n params))%Q
}.

(** A set of nodes that holds whatever is reachable from its nodes. *)
Definition closed (G : Nx.Graph) (X : gset nat) : Prop :=
  ∀ a b, a ∈ X → reach G a b → b ∈ X.

(** The clusters of a list are pairwise disjoint. *)
Definition pairwise_disjoint (cs : list (gset nat)) : Prop :=
  ∀ i j ci cj, i ≠ j → cs !! i = Some ci → cs !! j = Some cj → ci ## cj.

(** The product [n * speed] of real numbers, [speed] being the number a
    [float] denotes exactly. *)
Definition exact_product (params : Params) : option Q :=
  q ← Py.value (speed params); Some (inject_Z (n params) * q)%Q.

(** The value of [self.p.n * self.p.speed] as the program computes it: the
    product rounded to the nearest binary64 when [speed] is a [float];
    none when the product raises or is not finite. *)
Definition rounded_product (params : Params) : option Q :=
  match Py.mul_int (n params) (speed params) with
  | Py.Ok x => Py.value x
  | Py.Raise _ => None
  end.

(** ** Example parameterizations *)

(** The binary64 nearest to [0.05], the speed of the notebook's experiment. *)
Definition twentieth : spec_float := S754_finite false 7205759403792794 (-57).

(** [n = 10], [speed = 0.5]. *)
Definition ten_half : Params := {| n := 10; speed := Py.Float Py.half |}.

(** [n = 10], [speed = 0.05]. *)
Definition ten_twentieth : Params := {| n := 10; speed := Py.Float twentieth |}.

(** [n = 1], [speed = 1]. *)
Definition one_button : Params := {| n := 1; speed := Py.Int 1 |}.

(** [n = 2], [speed = 1]. *)
Definition two_buttons : Params := {| n := 2; speed := Py.Int 1 |}.

(** [n = 3], [speed = 0.3333333333333333], the binary64 nearest to a
    third. *)
Definition three_thirds : Params := {| n := 3; speed := Py.Float Py.third |}.

(** [n = 10], [speed = -3]. *)
Definition ten_backwards : Params := {| n := 10; speed := Py.Int (-3) |}.

(** A generator whose samples vary with the draw. *)
Definition spread : nat → nat * nat := fun i => (i, (3 * i)%nat).

(** A generator that repeats the same sample. *)
Definition stuck : nat → nat * nat := fun _ => (0%nat, 0%nat).

(** ** The experiment of the notebook *)

(** [parameter_ranges]: the number of time-steps, the speed and the values
    of [n], the latter given by [ap.Values(100, 1000, 10000)]. *)
Record Ranges := {
  steps : nat;
  range_speed : Py.number;
  n_values : list Z
}.

Definition parameter_ranges : Ranges :=
  {| steps := 30;
     range_speed := Py.Float twentieth;
     n_values := [100; 1000; 10000] |}.

(** [ap.Sample(parameter_ranges)]: one combination of parameters for each
    value of [n]. *)
Definition Sample (r : Ranges) : list Params :=
  (fun v => {| n := v; speed := range_speed r |}) <$> n_values r.

Definition sample : list Params := Sample parameter_ranges.

(** [iterations=25]. *)
Definition iterations : nat := 25.

(** [exp.run()]: each combination of the sample is run [iterations] times
    for [steps] time-steps, every run with a generator of its own,
    [gens sample_id iteration]. *)
Definition exp_run (gens : nat → nat → nat → nat * nat)
  : list (Py.result ButtonModel) :=
  mjoin (imap (fun sample_id params =>
                 (fun iteration =>
                    run params (gens sample_id iteration) (steps parameter_ranges))
                 <$> seq 0 iterations)
              sample).

(** ** Properties of the graph operations *)

Section graph_facts.
Implicit Types (G : Nx.Graph) (u v w x : nat).

Lemma neighbors_not_node G u : graph_wf G → u ∉ Nx.nodes G → Nx.neighbors G u = ∅.
Proof.
  intros Hwf Hu. unfold Nx.neighbors.
  destruct (Nx.adj G !! u) eqn:E; [|done].
  exfalso. apply Hu, (wf_dom G Hwf). eauto.
Qed.

Lemma edge_source_node G u v : graph_wf G → edge G u v → u ∈ Nx.nodes G.
Proof.
  intros Hwf He. destruct (decide (u ∈ Nx.nodes G)) as [|Hn]; [done|].
  unfold edge in He. rewrite (neighbors_not_node G u Hwf Hn) in He. set_solver.
Qed.

Lemma empty_wf : graph_wf Nx.empty.
Proof.
  split; simpl.
  - constructor.
  - intros u. rewrite lookup_empty. split; [by intros ?%elem_of_nil | by intros [? ?]].
  - intros u v. unfold edge, Nx.neighbors. simpl. rewrite lookup_empty. set_solver.
  - intros u v. unfold edge, Nx.neighbors. simpl. rewrite lookup_empty. set_solver.
Qed.

Lemma add_node_present G u : graph_wf G → u ∈ Nx.nodes G → Nx.add_node G u = G.
Proof.
  intros Hwf [a Ha]%(wf_dom G Hwf). unfold Nx.add_node. by rewrite Ha.
Qed.

Lemma add_node_nodes G u :
  graph_wf G → ∀ w, w ∈ Nx.nodes (Nx.add_node G u) ↔ w ∈ Nx.nodes G ∨ w = u.
Proof.
  intros Hwf w. unfold Nx.add_node.
  destruct (Nx.adj G !! u) eqn:E; simpl.
  - split; [by left|]. intros [?| ->]; [done|]. apply (wf_dom G Hwf). eauto.
  - rewrite elem_of_app, list_elem_of_singleton. done.
Qed.

Lemma add_node_neighbors G u w : Nx.neighbors (Nx.add_node G u) w = Nx.neighbors G w.
Proof.
  unfold Nx.add_node, Nx.neighbors.
  destruct (Nx.adj G !! u) eqn:E; simpl; [done|].
  destruct (decide (u = w)) as [->|Hne].
  - by rewrite lookup_insert_eq, E.
  - by rewrite lookup_insert_ne.
Qed.

Lemma add_node_wf G u : graph_wf G → graph_wf (Nx.add_node G u).
Proof.
  intros Hwf. split.
  - unfold Nx.add_node. destruct (Nx.adj G !! u) eqn:E; simpl; [by apply Hwf|].
    apply NoDup_app. split; [by apply Hwf|]. split; [|apply NoDup_singleton].
    intros w Hw ->%list_elem_of_singleton.
    apply (wf_dom G Hwf) in Hw as [? ?]. congruence.
  - intros w. rewrite add_node_nodes by done.
    unfold Nx.add_node. destruct (Nx.adj G !! u) eqn:E; simpl.
    + rewrite <- (wf_dom G Hwf). split; [|by left].
      intros [?| ->]; [done|]. apply (wf_dom G Hwf). eauto.
    + rewrite lookup_insert. case_decide as Hd; subst.
      * split; [eauto | by right].
      * rewrite <- (wf_dom G Hwf). split; [intros [?|?]; [done|congruence] | by left].
  - intros w v. unfold edge. rewrite add_node_neighbors, add_node_nodes by done.
    intros ?. left. by eapply (wf_closed G Hwf).
  - intros w v. unfold edge. rewrite !add_node_neighbors. apply Hwf.
Qed.

Lemma add_edge_nodes_eq G u v : Nx.nodes (Nx.add_edge G u v) = Nx.nodes (Nx.add_node (Nx.add_node G u) v).
Proof. reflexivity. Qed.

Lemma add_edge_nodes G u v :
  graph_wf G → u ∈ Nx.nodes G → v ∈ Nx.nodes G →
  Nx.nodes (Nx.add_edge G u v) = Nx.nodes G.
Proof.
  intros Hwf Hu Hv. rewrite add_edge_nodes_eq.
  by rewrite (add_node_present G u), (add_node_present G v).
Qed.

(** The adjacency after [add_edge]: the old one and the new edge, in both
    directions. *)
Lemma add_edge_neighbors G u v w x :
  x ∈ Nx.neighbors (Nx.add_edge G u v) w ↔
  x ∈ Nx.neighbors G w ∨ (w = u ∧ x = v) ∨ (w = v ∧ x = u).
Proof.
  unfold Nx.add_edge. unfold Nx.neighbors at 1. simpl.
  set (G1 := Nx.add_node (Nx.add_node G u) v).
  assert (HG1 : ∀ y, Nx.neighbors G1 y = Nx.neighbors G y).
  { intros y. unfold G1. by rewrite !add_node_neighbors. }
  rewrite lookup_insert. case_decide as Hv; subst; simpl.
  - rewrite lookup_insert. case_decide as Hu; subst; simpl.
    + rewrite HG1. set_solver.
    + fold (Nx.neighbors G1 w). rewrite HG1. set_solver.
  - rewrite lookup_insert. case_decide as Hu; subst; simpl.
    + rewrite HG1. set_solver.
    + fold (Nx.neighbors G1 w). rewrite HG1. set_solver.
Qed.

Lemma add_edge_edge G u v a b :
  edge (Nx.add_edge G u v) a b ↔ edge G a b ∨ (a = u ∧ b = v) ∨ (a = v ∧ b = u).
Proof. apply add_edge_neighbors. Qed.

Lemma add_edge_wf G u v : graph_wf G → graph_wf (Nx.add_edge G u v).
Proof.
  intros Hwf.
  pose proof (add_node_wf _ v (add_node_wf _ u Hwf)) as Hwf1.
  assert (Hn : ∀ w, w ∈ Nx.nodes (Nx.add_edge G u v) ↔ w ∈ Nx.nodes G ∨ w = u ∨ w = v).
  { intros w. rewrite add_edge_nodes_eq, add_node_nodes by by apply add_node_wf.
    rewrite add_node_nodes by done. tauto. }
  split.
  - rewrite add_edge_nodes_eq. apply Hwf1.
  - intros w. rewrite add_edge_nodes_eq. unfold Nx.add_edge. simpl.
    rewrite (wf_dom _ Hwf1 w).
    rewrite lookup_insert. case_decide as Hv; subst.
    + split; [eauto|]. intros _. apply (wf_dom _ Hwf1).
      apply add_node_nodes; [by apply add_node_wf | by right].
    + rewrite lookup_insert. case_decide as Hu; subst; [|done].
      split; [eauto|]. intros _. apply (wf_dom _ Hwf1).
      apply add_node_nodes; [by apply add_node_wf|]. left.
      apply add_node_nodes; [done | by right].
  - intros a b [He|[[-> ->]|[-> ->]]]%add_edge_edge; apply Hn.
    + left. by eapply (wf_closed G Hwf).
    + by right; right.
    + by right; left.
  - intros a b. rewrite !add_edge_edge. intros [He|[[-> ->]|[-> ->]]].
    + left. by apply Hwf.
    + by right; right.
    + by right; left.
Qed.

(** Adding an edge that is already there changes nothing. *)
Lemma add_edge_present G u v : graph_wf G → edge G u v → Nx.add_edge G u v = G.
Proof.
  intros Hwf He.
  assert (Hu : u ∈ Nx.nodes G) by by eapply edge_source_node.
  assert (Hv : v ∈ Nx.nodes G) by by eapply (wf_closed G Hwf).
  pose proof (wf_sym G Hwf _ _ He) as He'.
  unfold Nx.add_edge.
  rewrite (add_node_present G u), (add_node_present G v) by done.
  destruct G as [ns a]. simpl in *. f_equal.
  unfold edge, Nx.neighbors in He, He'. simpl in *.
  destruct (a !! u) as [su|] eqn:Eu; [|set_solver].
  destruct (a !! v) as [sv|] eqn:Ev; [|set_solver].
  simpl in *.
  assert (E1 : su ∪ {[v]} = su) by set_solver.
  unfold Nx.neighbors. simpl. rewrite Eu. simpl. rewrite E1.
  rewrite (insert_id a u su Eu). rewrite Ev. simpl.
  assert (E2 : sv ∪ {[u]} = sv) by set_solver.
  rewrite E2. by apply insert_id.
Qed.

Lemma reach_closed G (X : gset nat) u w :
  (∀ a b, a ∈ X → edge G a b → b ∈ X) → reach G u w → u ∈ X → w ∈ X.
Proof. intros Hcl Hr. induction Hr; eauto. Qed.

Lemma reach_mono G G' u w :
  (∀ a b, edge G a b → edge G' a b) → reach G u w → reach G' u w.
Proof. intros Hsub. apply rtc_subrel. done. Qed.

Lemma elem_of_frontier G (X : gset nat) w :
  w ∈ Nx.frontier G X ↔ ∃ u, u ∈ X ∧ edge G u w.
Proof. unfold Nx.frontier. rewrite elem_of_set_bind. naive_solver. Qed.

Lemma plain_bfs_loop_empty fuel G seen : Nx.plain_bfs_loop fuel G seen ∅ = seen.
Proof. destruct fuel; simpl; [done|]. by rewrite decide_True. Qed.

(** The loop invariant of [_plain_bfs]: everything seen or queued is
    reachable from the source, and the neighbours of a seen node are seen
    or queued. With one unit of fuel per node not seen yet, plus one, the
    loop ends with exactly the nodes reachable from the source. *)
Lemma plain_bfs_loop_spec G s :
  graph_wf G →
  ∀ fuel seen next,
    (size ((list_to_set (Nx.nodes G) : gset nat) ∖ seen) < fuel)%nat →
    (∀ w, w ∈ seen ∪ next → reach G s w) →
    (∀ a b, a ∈ seen → edge G a b → b ∈ seen ∪ next) →
    s ∈ seen ∪ next →
    seen ∪ next ⊆ list_to_set (Nx.nodes G) →
    ∀ w, w ∈ Nx.plain_bfs_loop fuel G seen next ↔ reach G s w.
Proof.
  intros Hwf. induction fuel as [|fuel IH]; intros seen next Hfuel Hsound Hcl Hs Hsub w.
  { lia. }
  simpl. case_decide as Hnext.
  { subst next. split.
    - intros Hw. apply Hsound. set_solver.
    - intros Hr. apply (reach_closed G seen s w); [|done|set_solver].
      intros a b Ha Hab. specialize (Hcl a b Ha Hab). set_solver. }
  destruct (decide (next ∖ seen = ∅)) as [Hfresh|Hfresh].
  { rewrite Hfresh.
    assert (Hf : Nx.frontier G ∅ = ∅).
    { apply set_eq. intros x. rewrite elem_of_frontier. set_solver. }
    rewrite Hf, plain_bfs_loop_empty, (right_id_L ∅ (∪)).
    assert (Hns : next ⊆ seen).
    { intros x Hx. destruct (decide (x ∈ seen)); [done|]. set_solver. }
    split.
    - intros Hw. apply Hsound. set_solver.
    - intros Hr. apply (reach_closed G seen s w); [|done|set_solver].
      intros a b Ha Hab. specialize (Hcl a b Ha Hab). set_solver. }
  apply IH.
  - apply set_choose_L in Hfresh as [x Hx].
    assert ((list_to_set (Nx.nodes G) : gset nat) ∖ (seen ∪ next ∖ seen)
            ⊂ list_to_set (Nx.nodes G) ∖ seen) as Hlt%subset_size; [|lia].
    split; [set_solver|]. intros Hcontra.
    assert (x ∈ (list_to_set (Nx.nodes G) : gset nat) ∖ seen) as Hx1 by set_solver.
    apply Hcontra in Hx1. set_solver.
  - intros x [Hx|Hx]%elem_of_union.
    + apply Hsound. set_solver.
    + apply elem_of_frontier in Hx as (a & Ha & Hax).
      eapply rtc_r; [|exact Hax]. apply Hsound. set_solver.
  - intros a b [Ha|Ha]%elem_of_union Hab.
    + specialize (Hcl a b Ha Hab).
      destruct (decide (b ∈ seen)); set_solver.
    + apply elem_of_union_r, elem_of_frontier. eauto.
  - destruct (decide (s ∈ seen)); set_solver.
  - intros x [Hx|Hx]%elem_of_union; [set_solver|].
    apply elem_of_frontier in Hx as (a & Ha & Hax).
    apply elem_of_list_to_set. by eapply (wf_closed G Hwf).
Qed.

(** [_plain_bfs(G, s)] is the set of nodes reachable from [s]. *)
Lemma plain_bfs_spec G s w :
  graph_wf G → s ∈ Nx.nodes G → w ∈ Nx.plain_bfs G s ↔ reach G s w.
Proof.
  intros Hwf Hs. unfold Nx.plain_bfs. apply plain_bfs_loop_spec; [done|..].
  - rewrite difference_empty_L, size_list_to_set by by apply Hwf. lia.
  - intros x Hx. assert (x = s) as -> by set_solver. apply rtc_refl.
  - set_solver.
  - set_solver.
  - intros x Hx. assert (x = s) as -> by set_solver. by apply elem_of_list_to_set.
Qed.

End graph_facts.

(** ** Properties of [connected_components] and of the biggest cluster *)

Section component_facts.
Implicit Types (G : Nx.Graph) (c : gset nat).

Lemma components_loop_sound G vs seen c :
  c ∈ Nx.components_loop G vs seen → ∃ v, v ∈ vs ∧ c = Nx.plain_bfs G v.
Proof.
  revert seen. induction vs as [|a vs IH]; simpl; intros seen.
  - by intros ?%elem_of_nil.
  - case_decide.
    + intros (v & ? & ?)%IH. exists v. split; [by right|done].
    + intros [->|(v & ? & ?)%IH]%elem_of_cons.
      * exists a. split; [by left|done].
      * exists v. split; [by right|done].
Qed.

Lemma components_loop_cover G vs seen v :
  graph_wf G → (∀ x, x ∈ vs → x ∈ Nx.nodes G) → v ∈ vs →
  v ∈ seen ∨ ∃ c, c ∈ Nx.components_loop G vs seen ∧ v ∈ c.
Proof.
  intros Hwf. revert seen. induction vs as [|a vs IH]; simpl; intros seen Hvs Hv.
  - by apply elem_of_nil in Hv.
  - assert (Hvs' : ∀ x, x ∈ vs → x ∈ Nx.nodes G).
    { intros x Hx. apply Hvs. by right. }
    apply elem_of_cons in Hv as [->|Hv].
    + case_decide; [by left|]. right. exists (Nx.plain_bfs G a). split; [by left|].
      apply plain_bfs_spec; [done| |apply rtc_refl]. apply Hvs. by left.
    + case_decide.
      * destruct (IH seen Hvs' Hv) as [?|(c & ? & ?)]; [by left|]. right. eauto.
      * destruct (IH (seen ∪ Nx.plain_bfs G a) Hvs' Hv) as [[?|?]%elem_of_union|(c & ? & ?)].
        -- by left.
        -- right. exists (Nx.plain_bfs G a). split; [by left|done].
        -- right. exists c. split; [by right|done].
Qed.

(** Every cluster is the set of nodes reachable from one of its nodes. *)
Lemma connected_components_spec G c :
  graph_wf G → c ∈ Nx.connected_components G →
  ∃ v, v ∈ Nx.nodes G ∧ ∀ w, w ∈ c ↔ reach G v w.
Proof.
  intros Hwf (v & Hv & ->)%components_loop_sound. exists v. split; [done|].
  intros w. by apply plain_bfs_spec.
Qed.

(** Every node is in some cluster. *)
Lemma connected_components_cover G v :
  graph_wf G → v ∈ Nx.nodes G → ∃ c, c ∈ Nx.connected_components G ∧ v ∈ c.
Proof.
  intros Hwf Hv.
  destruct (components_loop_cover G (Nx.nodes G) ∅ v Hwf) as [?|?]; [done|done|set_solver|done].
Qed.

Lemma foldl_max_spec (l : list Z) (x : Z) :
  (foldl Z.max x l = x ∨ foldl Z.max x l ∈ l) ∧
  x ≤ foldl Z.max x l ∧ ∀ y, y ∈ l → y ≤ foldl Z.max x l.
Proof.
  revert x. induction l as [|a l IH]; intros x; simpl.
  - split; [by left|]. split; [lia|]. by intros y ?%elem_of_nil.
  - destruct (IH (Z.max x a)) as (Hin & Hle & Hall). split; [|split].
    + destruct Hin as [Hin|Hin]; [|by right; right].
      rewrite Hin. destruct (Z.max_spec x a) as [[_ ->]|[_ ->]]; [right; by left|by left].
    + lia.
    + intros y [->|Hy]%elem_of_cons; [lia|by apply Hall].
Qed.

Lemma py_max_spec (l : list Z) (M : Z) :
  Py.max l = Py.Ok M → M ∈ l ∧ ∀ y, y ∈ l → y ≤ M.
Proof.
  destruct l as [|x l]; simpl; [done|]. intros [= <-].
  destruct (foldl_max_spec l x) as (Hin & Hle & Hall). split.
  - destruct Hin as [->|?]; [by left|by right].
  - intros y [->|Hy]%elem_of_cons; [done|by apply Hall].
Qed.

Lemma py_max_ok (l : list Z) : l ≠ [] → ∃ M, Py.max l = Py.Ok M.
Proof. destruct l; [done|]. simpl. eauto. Qed.

Lemma biggest_cluster_ok G :
  graph_wf G → Nx.nodes G ≠ [] → ∃ M, biggest_cluster G = Py.Ok M.
Proof.
  intros Hwf Hne. apply py_max_ok.
  destruct (Nx.nodes G) as [|v vs] eqn:E; [done|].
  destruct (connected_components_cover G v Hwf) as (c & Hc & _).
  { rewrite E. by left. }
  intros Hnil%fmap_nil_inv. rewrite Hnil in Hc. by apply elem_of_nil in Hc.
Qed.

(** The biggest cluster is a cluster, and no cluster is bigger. *)
Lemma biggest_cluster_spec G M :
  biggest_cluster G = Py.Ok M →
  (∃ c, c ∈ Nx.connected_components G ∧ M = Z.of_nat (size c)) ∧
  ∀ c, c ∈ Nx.connected_components G → Z.of_nat (size c) ≤ M.
Proof.
  intros [Hin Hall]%py_max_spec. split.
  - apply list_elem_of_fmap in Hin as (c & -> & Hc). eauto.
  - intros c Hc. apply Hall, list_elem_of_fmap. eauto.
Qed.

(** More edges on the same nodes: the biggest cluster does not shrink. *)
Lemma biggest_cluster_mono G G' M M' :
  graph_wf G → graph_wf G' →
  (∀ v, v ∈ Nx.nodes G → v ∈ Nx.nodes G') →
  (∀ a b, edge G a b → edge G' a b) →
  biggest_cluster G = Py.Ok M → biggest_cluster G' = Py.Ok M' → M ≤ M'.
Proof.
  intros Hwf Hwf' Hnodes Hedges [(c & Hc & ->) _]%biggest_cluster_spec
    [_ Hmax']%biggest_cluster_spec.
  destruct (connected_components_spec G c Hwf Hc) as (v & Hv & Hcv).
  destruct (connected_components_cover G' v Hwf' (Hnodes v Hv)) as (c' & Hc' & Hvc').
  destruct (connected_components_spec G' c' Hwf' Hc') as (v' & Hv' & Hcv').
  etrans; [|apply (Hmax' c' Hc')].
  apply inj_le, subseteq_size. intros w Hw.
  apply Hcv'. etrans; [by apply Hcv'|].
  eapply reach_mono; [exact Hedges|]. by apply Hcv.
Qed.

End component_facts.

(** ** Properties of the Python arithmetic *)

Section arithmetic_facts.

Lemma binary_round_aux_sign sx mx ex lx :
  match binary_round_aux Py.prec Py.emax sx mx ex lx with
  | S754_zero s | S754_infinity s | S754_finite s _ _ => s = sx
  | S754_nan => True
  end.
Proof.
  unfold binary_round_aux.
  destruct (shr_fexp _ _ mx ex lx) as [mrs' e'].
  destruct (shr_fexp _ _ _ e' loc_Exact) as [mrs'' e''].
  destruct (shr_m mrs''); [done| |done].
  by destruct (_ <=? _).
Qed.

Lemma float_of_int_sign (z : Z) (f : spec_float) :
  1 ≤ z → Py.float_of_int z = Py.Ok f →
  match f with S754_finite s _ _ => s = false | _ => True end.
Proof.
  intros Hz. unfold Py.float_of_int.
  destruct z as [|q|q]; [lia| |lia]. simpl. unfold binary_round.
  destruct (shl_align _ _ _) as [mz ez].
  pose proof (binary_round_aux_sign false (Z.pos mz) ez loc_Exact) as Hs.
  destruct (binary_round_aux _ _ _ _ _ _); intros [= <-]; done.
Qed.

Lemma trunc_mantissa_nonneg (m : positive) (e : Z) : 0 ≤ Py.trunc_mantissa m e.
Proof.
  unfold Py.trunc_mantissa. destruct e as [|q|q].
  - lia.
  - assert (0 ≤ 2 ^ Z.pos q) by (apply Z.pow_nonneg; lia). lia.
  - apply Z.div_pos; [lia|]. apply Z.pow_pos_nonneg; lia.
Qed.

Lemma int_mul_nonneg (fx f : spec_float) (b : Z) :
  match fx with S754_finite s _ _ => s = false | _ => True end →
  Py.nonneg (Py.Float f) = true →
  Py.int (Py.Float (SFmul Py.prec Py.emax fx f)) = Py.Ok b → 0 ≤ b.
Proof.
  intros Hfx Hf.
  destruct fx as [sx|sx| |sx mx ex], f as [sy|sy| |sy my ey]; simpl in *;
    try done; try (intros [= <-]; lia).
  subst sx. destruct sy; [done|]. simpl.
  pose proof (binary_round_aux_sign false (Z.pos (mx * my)) (ex + ey) loc_Exact) as Hs.
  destruct (binary_round_aux _ _ _ _ _ _) as [s|s| |s m e]; simpl; try done.
  - intros [= <-]. lia.
  - subst s. intros [= <-]. simpl. apply trunc_mantissa_nonneg.
Qed.

(** With [n ≥ 1] and [speed >= 0] the loop bound is not negative. *)
Lemma loop_bound_nonneg (params : Params) (b : Z) :
  1 ≤ n params → Py.nonneg (speed params) = true →
  loop_bound params = Py.Ok b → 0 ≤ b.
Proof.
  intros Hn Hs. unfold loop_bound, Py.mul_int.
  destruct (speed params) as [z|f] eqn:E; simpl.
  - intros [= <-]. simpl in Hs. apply Z.leb_le in Hs. lia.
  - destruct (Py.float_of_int (n params)) as [fx|] eqn:Efx; simpl; [|done].
    apply int_mul_nonneg; [|done]. by eapply float_of_int_sign.
Qed.

Lemma inject_Z_nonneg (z : Z) : (0 <= inject_Z z)%Q → 0 ≤ z.
Proof. intros H. change (inject_Z 0 <= inject_Z z)%Q in H. by rewrite <- Zle_Qle in H. Qed.

Lemma inject_Z_below (z b : Z) : (inject_Z z < inject_Z b)%Q → z < b.
Proof. intros H. by rewrite <- Zlt_Qlt in H. Qed.

Lemma inject_Z_pos (z : Z) : 0 < z → (0 < inject_Z z)%Q.
Proof. intros H. change (inject_Z 0 < inject_Z z)%Q. by rewrite <- Zlt_Qlt. Qed.

(** A finite number in [[0, 1)] truncates to [0]. *)
Lemma int_small (x : Py.number) (q : Q) :
  Py.value x = Some q → (0 <= q)%Q → (q < 1)%Q → Py.int x = Py.Ok 0.
Proof.
  destruct x as [z|[s|s| |s m e]]; simpl; try done.
  - intros [= <-] H0%inject_Z_nonneg H1%(inject_Z_below z 1). f_equal. lia.
  - intros [= <-] H0 H1. f_equal. destruct e as [|e|e].
    + apply inject_Z_nonneg in H0. apply (inject_Z_below _ 1) in H1.
      destruct s; simpl in *; lia.
    + apply inject_Z_nonneg in H0. apply (inject_Z_below _ 1) in H1.
      assert (0 < 2 ^ Z.pos e) by (apply Z.pow_pos_nonneg; lia).
      destruct s; simpl in *; nia.
    + assert (HD : 0 < 2 ^ Z.pos e) by (apply Z.pow_pos_nonneg; lia).
      pose proof (inject_Z_pos _ HD) as HDq.
      pose proof (Qinv_lt_0_compat _ HDq) as HDi.
      assert (Hnum : 0 ≤ cond_Zopp s (Z.pos m) < 2 ^ Z.pos e).
      { split.
        - apply inject_Z_nonneg.
          apply (Qmult_le_r _ _ (/ inject_Z (2 ^ Z.pos e))%Q); [done|].
          by rewrite Qmult_0_l.
        - apply inject_Z_below.
          apply (Qmult_lt_r _ _ (/ inject_Z (2 ^ Z.pos e))%Q); [done|].
          rewrite Qmult_inv_r; [done|]. intros Heq. rewrite Heq in HDq.
          by apply Qlt_irrefl in HDq. }
      destruct s; simpl in *; [lia|]. by apply Z.div_small.
Qed.

(** The bound is taken from the rounded product: [10 * 0.5] is exactly
    [5.0], whereas [3 * 0.3333333333333333] rounds up to [1.0]. *)
Example loop_bound_of_rounded_product :
  loop_bound {| n := 10; speed := Py.Float Py.half |} = Py.Ok 5 ∧
  loop_bound {| n := 3; speed := Py.Float Py.third |} = Py.Ok 1 ∧
  loop_bound {| n := 3; speed := Py.Int 2 |} = Py.Ok 6.
Proof. repeat split; vm_compute; reflexivity. Qed.

End arithmetic_facts.

(** ** Properties of [random(2)] *)

Section sample_facts.

Lemma sample2_short {A} (l : list A) (e : nat * nat) :
  (length l < 2)%nat → Ap.sample2 l e = None.
Proof. intros H. unfold Ap.sample2. by rewrite decide_True. Qed.

(** With two agents or more the sample succeeds, and its two agents stand
    at different positions. *)
Lemma sample2_seq (N : nat) (e : nat * nat) :
  (2 ≤ N)%nat →
  ∃ u v, Ap.sample2 (seq 0 N) e = Some (u, v) ∧ (u < N)%nat ∧ (v < N)%nat ∧ u ≠ v.
Proof.
  intros HN. unfold Ap.sample2. rewrite length_seq.
  rewrite decide_False by lia.
  set (i := (e.1 mod N)%nat). set (j0 := (e.2 mod (N - 1))%nat).
  assert (i < N)%nat by (apply Nat.mod_upper_bound; lia).
  assert (j0 < N - 1)%nat by (apply Nat.mod_upper_bound; lia).
  exists i, (if decide (j0 < i)%nat then j0 else S j0).
  case_decide; rewrite !lookup_seq_lt by lia; simpl; repeat split; lia.
Qed.

(** Every ordered pair of different agents is a possible sample. *)
Lemma sample2_any (N u v : nat) :
  (u < N)%nat → (v < N)%nat → u ≠ v →
  ∃ e, Ap.sample2 (seq 0 N) e = Some (u, v).
Proof.
  intros Hu Hv Hne.
  exists (u, if decide (v < u)%nat then v else (v - 1)%nat).
  unfold Ap.sample2. rewrite length_seq, decide_False by lia. simpl.
  rewrite (Nat.mod_small u N) by done.
  destruct (decide (v < u)%nat).
  - rewrite (Nat.mod_small v (N - 1)) by lia.
    rewrite decide_True by done. by rewrite !lookup_seq_lt by done.
  - rewrite (Nat.mod_small (v - 1) (N - 1)) by lia.
    rewrite decide_False by lia.
    replace (S (v - 1)) with v by lia. by rewrite !lookup_seq_lt by done.
Qed.

End sample_facts.

(** ** Properties of [setup] *)

Section setup_facts.

Lemma add_agents_spec (count : nat) :
  ∀ (G : Nx.Graph) (label : nat),
    graph_wf G → (∀ w, w ∈ Nx.nodes G → (w < label)%nat) →
    graph_wf (add_agents G label count) ∧
    Nx.nodes (add_agents G label count) = Nx.nodes G ++ seq label count ∧
    ∀ w, Nx.neighbors (add_agents G label count) w = Nx.neighbors G w.
Proof.
  induction count as [|count IH]; intros G label Hwf Hlt; simpl.
  { split; [done|]. split; [by rewrite app_nil_r|done]. }
  assert (Hfresh : Nx.adj G !! label = None).
  { destruct (Nx.adj G !! label) eqn:E; [|done].
    assert (label ∈ Nx.nodes G) as ?%Hlt by (apply (wf_dom G Hwf); eauto). lia. }
  assert (Hnodes : Nx.nodes (Nx.add_node G label) = Nx.nodes G ++ [label]).
  { unfold Nx.add_node. by rewrite Hfresh. }
  destruct (IH (Nx.add_node G label) (S label)) as (Hwf' & Hn' & Hnb').
  - by apply add_node_wf.
  - intros w. rewrite Hnodes, elem_of_app, list_elem_of_singleton.
    intros [?%Hlt| ->]; lia.
  - split; [done|]. split.
    + by rewrite Hn', Hnodes, <- app_assoc.
    + intros w. by rewrite Hnb', add_node_neighbors.
Qed.

Lemma setup_wf params gen : graph_wf (buttons (setup params gen)).
Proof.
  apply (add_agents_spec _ Nx.empty 0%nat); [apply empty_wf|].
  by intros w ?%elem_of_nil.
Qed.

Lemma setup_nodes params gen :
  Nx.nodes (buttons (setup params gen)) = seq 0 (Z.to_nat (n params)).
Proof.
  destruct (add_agents_spec (Z.to_nat (n params)) Nx.empty 0%nat) as (_ & H & _);
    [apply empty_wf|by intros w ?%elem_of_nil|]. exact H.
Qed.

Lemma setup_isolated params gen u : Nx.neighbors (buttons (setup params gen)) u = ∅.
Proof.
  destruct (add_agents_spec (Z.to_nat (n params)) Nx.empty 0%nat) as (_ & _ & H);
    [apply empty_wf|by intros w ?%elem_of_nil|].
  simpl. rewrite H. unfold Nx.neighbors. simpl. by rewrite lookup_empty.
Qed.

Lemma setup_inv params gen : model_inv params (setup params gen).
Proof.
  split.
  - done.
  - apply setup_wf.
  - apply setup_nodes.
  - apply (setup_nodes params gen).
  - intros u. unfold edge. rewrite setup_isolated. set_solver.
Qed.

Lemma isolated_no_edges (G : Nx.Graph) :
  (∀ u, Nx.neighbors G u = ∅) → Nx.number_of_edges G = 0%nat.
Proof.
  intros Hiso. unfold Nx.number_of_edges.
  assert (foldr (λ u acc, (Nx.degree G u + acc)%nat) 0%nat (Nx.nodes G) = 0%nat) as ->; [|done].
  induction (Nx.nodes G) as [|a l IH]; simpl; [done|].
  rewrite IH. unfold Nx.degree. rewrite Hiso. rewrite decide_False by set_solver.
  by rewrite size_empty.
Qed.

(** With no edge at all, every cluster is a single node. *)
Lemma isolated_biggest_cluster (G : Nx.Graph) :
  graph_wf G → Nx.nodes G ≠ [] → (∀ u, Nx.neighbors G u = ∅) →
  biggest_cluster G = Py.Ok 1.
Proof.
  intros Hwf Hne Hiso.
  destruct (biggest_cluster_ok G Hwf Hne) as [M HM]. rewrite HM. f_equal.
  apply biggest_cluster_spec in HM as [(c & Hc & ->) _].
  destruct (connected_components_spec G c Hwf Hc) as (v & Hv & Hcv).
  assert (c = {[v]}) as ->; [|by rewrite size_singleton].
  apply set_eq. intros w. rewrite Hcv, elem_of_singleton. split.
  - intros Hr. destruct Hr as [|x y z Hxy _]; [done|].
    unfold edge in Hxy. rewrite Hiso in Hxy. set_solver.
  - intros ->. apply rtc_refl.
Qed.

End setup_facts.

(** ** Properties of [step], [update] and [run] *)

Section run_facts.
Implicit Types (m : ButtonModel) (params : Params).

Lemma add_thread_short params m :
  model_inv params m → n params < 2 → add_thread m = Py.Raise Py.ValueError.
Proof.
  intros Hinv Hn. unfold add_thread.
  rewrite sample2_short; [done|].
  rewrite (inv_agents _ _ Hinv), length_seq. lia.
Qed.

(** One iteration of the loop: the sample succeeds when there are two
    agents or more, its nodes [u] and [v] differ, the edge is added and the
    counter goes up by one. *)
Lemma add_thread_spec params m :
  model_inv params m → 2 ≤ n params →
  ∃ u v, Ap.sample2 (agents m) (random m (drawn m)) = Some (u, v) ∧
    u ≠ v ∧ u ∈ Nx.nodes (buttons m) ∧ v ∈ Nx.nodes (buttons m) ∧
    add_thread m = Py.Ok
      {| p := p m; buttons := Nx.add_edge (buttons m) u v; agents := agents m;
         threads := threads m + 1; log := log m; random := random m;
         drawn := S (drawn m) |}.
Proof.
  intros Hinv Hn.
  destruct (sample2_seq (Z.to_nat (n params)) (random m (drawn m)))
    as (u & v & Hs & Hu & Hv & Hne); [lia|].
  exists u, v. rewrite (inv_agents _ _ Hinv), (inv_nodes _ _ Hinv).
  split; [done|]. split; [done|].
  split; [apply elem_of_seq; lia|]. split; [apply elem_of_seq; lia|].
  unfold add_thread. by rewrite (inv_agents _ _ Hinv), Hs.
Qed.

Lemma add_thread_inv params m m' :
  model_inv params m → add_thread m = Py.Ok m' →
  model_inv params m' ∧
  threads m' = threads m + 1 ∧ drawn m' = S (drawn m) ∧
  log m' = log m ∧ random m' = random m ∧
  ∀ a b, edge (buttons m) a b → edge (buttons m') a b.
Proof.
  intros Hinv Hm'.
  destruct (decide (n params < 2)) as [Hn|Hn].
  { by rewrite (add_thread_short params m) in Hm'. }
  destruct (add_thread_spec params m Hinv) as (u & v & _ & Hne & Hu & Hv & Heq); [lia|].
  rewrite Heq in Hm'. injection Hm' as <-. cbn [p buttons agents threads log random drawn].
  split; [|split; [done|split; [done|split; [done|split; [done|]]]]].
  - split; cbn [p buttons agents threads log random drawn].
    + apply Hinv.
    + apply add_edge_wf, Hinv.
    + rewrite add_edge_nodes; [apply Hinv|apply Hinv|done|done].
    + apply Hinv.
    + intros w [He|[[-> ->]|[-> ->]]]%add_edge_edge; [|done|done].
      by apply (inv_noloop _ _ Hinv w).
  - intros a b He. apply add_edge_edge. by left.
Qed.

Lemma repeat_body_inv params (count : nat) :
  ∀ m m', model_inv params m → repeat_body count m = Py.Ok m' →
    model_inv params m' ∧
    threads m' = threads m + Z.of_nat count ∧
    drawn m' = (drawn m + count)%nat ∧
    log m' = log m ∧ random m' = random m ∧
    ∀ a b, edge (buttons m) a b → edge (buttons m') a b.
Proof.
  induction count as [|count IH]; intros m m' Hinv; simpl.
  - intros [= <-]. repeat split; try done; try apply Hinv; lia.
  - destruct (add_thread m) as [m1|] eqn:E1; simpl; [|done]. intros Hm'.
    destruct (add_thread_inv params m m1 Hinv E1) as (Hinv1 & Ht1 & Hd1 & Hl1 & Hr1 & He1).
    destruct (IH m1 m' Hinv1 Hm') as (Hinv' & Ht' & Hd' & Hl' & Hr' & He').
    split; [done|]. split; [lia|]. split; [lia|]. split; [congruence|].
    split; [congruence|]. eauto.
Qed.

Lemma repeat_body_ok params (count : nat) :
  ∀ m, model_inv params m → 2 ≤ n params → ∃ m', repeat_body count m = Py.Ok m'.
Proof.
  induction count as [|count IH]; intros m Hinv Hn; simpl; [eauto|].
  destruct (add_thread_spec params m Hinv Hn) as (u & v & _ & _ & _ & _ & Heq).
  rewrite Heq. simpl. apply IH; [|done].
  by destruct (add_thread_inv params m _ Hinv Heq) as [? _].
Qed.

Lemma step_inv params bound m m' :
  model_inv params m → loop_bound params = Py.Ok bound → step m = Py.Ok m' →
  model_inv params m' ∧
  threads m' = threads m + Z.of_nat (Py.range bound) ∧
  drawn m' = (drawn m + Py.range bound)%nat ∧
  log m' = log m ∧ random m' = random m ∧
  ∀ a b, edge (buttons m) a b → edge (buttons m') a b.
Proof.
  intros Hinv Hb. unfold step. rewrite (inv_p _ _ Hinv), Hb. simpl.
  by apply repeat_body_inv.
Qed.

Lemma step_ok params bound m :
  model_inv params m → loop_bound params = Py.Ok bound →
  2 ≤ n params ∨ bound ≤ 0 → ∃ m', step m = Py.Ok m'.
Proof.
  intros Hinv Hb Hcase. unfold step. rewrite (inv_p _ _ Hinv), Hb. simpl.
  destruct Hcase as [Hn|Hz].
  - by eapply repeat_body_ok.
  - unfold Py.range. rewrite Z2Nat.nonpos by done. simpl. eauto.
Qed.

(** [update] appends one row and changes nothing else. *)
Lemma update_spec params m :
  model_inv params m → 1 ≤ n params →
  ∃ M, biggest_cluster (buttons m) = Py.Ok M ∧
    update m = Py.Ok
      {| p := p m; buttons := buttons m; agents := agents m; threads := threads m;
         log := log m ++
           [{| max_cluster_size := (inject_Z M / inject_Z (n params))%Q;
               threads_to_button := (inject_Z (threads m) / inject_Z (n params))%Q |}];
         random := random m; drawn := drawn m |}.
Proof.
  intros Hinv Hn.
  destruct (biggest_cluster_ok (buttons m)) as [M HM]; [apply Hinv| |].
  { rewrite (inv_nodes _ _ Hinv). destruct (Z.to_nat (n params)) eqn:E; [lia|done]. }
  exists M. split; [done|]. unfold update.
  unfold biggest_cluster in HM. rewrite HM. simpl.
  rewrite (inv_p _ _ Hinv). unfold Py.truediv.
  destruct (n params =? 0) eqn:E; [lia|]. done.
Qed.

Lemma update_needs_agents params m m' :
  model_inv params m → update m = Py.Ok m' → 1 ≤ n params.
Proof.
  intros Hinv. unfold update, Nx.connected_components.
  rewrite (inv_nodes _ _ Hinv).
  destruct (Z.to_nat (n params)) eqn:E; [done|lia].
Qed.

Lemma ratio_le (a b d : Z) :
  1 ≤ d → a ≤ b → (inject_Z a / inject_Z d <= inject_Z b / inject_Z d)%Q.
Proof.
  intros Hd Hab. apply Qmult_le_compat_r.
  - by rewrite <- Zle_Qle.
  - apply Qlt_le_weak, Qinv_lt_0_compat, inject_Z_pos. lia.
Qed.

Lemma update_inv params m m' :
  model_inv params m → log_inv m → update m = Py.Ok m' →
  model_inv params m' ∧ log_inv m' ∧
  buttons m' = buttons m ∧ agents m' = agents m ∧ threads m' = threads m ∧
  drawn m' = drawn m ∧ random m' = random m ∧
  ∃ M, biggest_cluster (buttons m) = Py.Ok M ∧
    log m' = log m ++
      [{| max_cluster_size := (inject_Z M / inject_Z (n params))%Q;
          threads_to_button := (inject_Z (threads m) / inject_Z (n params))%Q |}].
Proof.
  intros Hinv Hlog Hm'.
  pose proof (update_needs_agents params m m' Hinv Hm') as Hn.
  destruct (update_spec params m Hinv Hn) as (M & HM & Heq).
  rewrite Heq in Hm'. injection Hm' as <-.
  cbn [p buttons agents threads log random drawn].
  split; [|split; [|repeat (split; [done|]); eauto]].
  - split; cbn [p buttons agents threads log random drawn]; apply Hinv.
  - split; cbn [p buttons agents threads log random drawn].
    + intros i j r1 r2 Hij H1 H2.
      apply lookup_app_Some in H2 as [H2|[Hj H2]].
      * apply lookup_app_Some in H1 as [H1|[Hi _]].
        -- by eapply (log_sorted m Hlog i j).
        -- apply lookup_lt_Some in H2. lia.
      * apply list_lookup_singleton_Some in H2 as [_ <-]. simpl.
        apply lookup_app_Some in H1 as [H1|[Hi H1]].
        -- rewrite <- (inv_p _ _ Hinv). apply (log_bounded m Hlog); [|done].
           by eapply list_elem_of_lookup_2.
        -- apply list_lookup_singleton_Some in H1 as [_ <-]. apply Qle_refl.
    + intros r M' [Hr| ->%list_elem_of_singleton]%elem_of_app HM'.
      * by apply (log_bounded m Hlog).
      * simpl. rewrite HM in HM'. injection HM' as <-.
        rewrite (inv_p _ _ Hinv). apply Qle_refl.
Qed.

Lemma step_log_inv params m m' :
  model_inv params m → 1 ≤ n params → log_inv m → step m = Py.Ok m' → log_inv m'.
Proof.
  intros Hinv Hn Hlog Hm'.
  assert (∃ bound, loop_bound params = Py.Ok bound) as [bound Hb].
  { unfold step in Hm'. rewrite (inv_p _ _ Hinv) in Hm'.
    destruct (loop_bound params); [eauto|done]. }
  destruct (step_inv params bound m m' Hinv Hb Hm') as (Hinv' & _ & _ & Hl & _ & He).
  split.
  - rewrite Hl. apply Hlog.
  - intros r M' Hr HM'. rewrite Hl in Hr.
    destruct (biggest_cluster_ok (buttons m)) as [M HM]; [apply Hinv| |].
    { rewrite (inv_nodes _ _ Hinv). destruct (Z.to_nat (n params)) eqn:E; [lia|done]. }
    eapply Qle_trans; [by apply (log_bounded m Hlog)|].
    rewrite (inv_p _ _ Hinv), (inv_p _ _ Hinv'). apply ratio_le; [done|].
    eapply (biggest_cluster_mono (buttons m) (buttons m')); try done; try apply Hinv; try apply Hinv'.
    intros v. by rewrite (inv_nodes _ _ Hinv), (inv_nodes _ _ Hinv').
Qed.

(** The state at time 0. *)
Lemma run_inv_start params gen per_step m0 :
  update (setup params gen) = Py.Ok m0 → run_inv params gen per_step 0 m0.
Proof.
  intros Hm0.
  assert (log_inv (setup params gen)) as Hlog0.
  { split; simpl; [by intros i j r1 r2 _ ?|by intros r M ?%elem_of_nil]. }
  destruct (update_inv params _ m0 (setup_inv params gen) Hlog0 Hm0)
    as (Hinv & Hlog & _ & _ & Ht & Hd & Hr & M & _ & Hl).
  simpl in Ht, Hd, Hr, Hl. split.
  - done.
  - done.
  - lia.
  - lia.
  - by rewrite Hl.
  - done.
  - intros i r. rewrite Hl. intros [-> <-]%list_lookup_singleton_Some. done.
Qed.

(** One more time-step. *)
Lemma run_inv_step params gen bound k m m1 m2 :
  loop_bound params = Py.Ok bound →
  run_inv params gen (Z.of_nat (Py.range bound)) k m →
  step m = Py.Ok m1 → update m1 = Py.Ok m2 →
  run_inv params gen (Z.of_nat (Py.range bound)) (S k) m2.
Proof.
  intros Hb [Hinv Hr Ht Hd Hlen Hlog Hratio] H1 H2.
  destruct (step_inv params bound m m1 Hinv Hb H1) as (Hinv1 & Ht1 & Hd1 & Hl1 & Hr1 & _).
  pose proof (update_needs_agents params m1 m2 Hinv1 H2) as Hn.
  pose proof (step_log_inv params m m1 Hinv Hn Hlog H1) as Hlog1.
  destruct (update_inv params m1 m2 Hinv1 Hlog1 H2)
    as (Hinv2 & Hlog2 & _ & _ & Ht2 & Hd2 & Hr2 & M & _ & Hl2).
  split.
  - done.
  - congruence.
  - lia.
  - lia.
  - rewrite Hl2, length_app, Hl1, Hlen. simpl. lia.
  - done.
  - intros i r. rewrite Hl2, Hl1. intros [Hi|[Hi Hrow]]%lookup_app_Some.
    + by apply Hratio.
    + apply list_lookup_singleton_Some in Hrow as [Hi0 <-]. simpl.
      rewrite Hlen in Hi, Hi0. rewrite Ht1, Ht.
      replace i with (S k) by lia. f_equal. f_equal. lia.
Qed.

Lemma sim_steps_inv params gen bound m0 (k : nat) :
  ∀ m, loop_bound params = Py.Ok bound →
    run_inv params gen (Z.of_nat (Py.range bound)) 0 m0 →
    sim_steps k m0 = Py.Ok m →
    run_inv params gen (Z.of_nat (Py.range bound)) k m.
Proof.
  induction k as [|k IH]; intros m Hb H0; simpl.
  - by intros [= <-].
  - destruct (sim_steps k m0) as [m1|] eqn:E1; simpl; [|done].
    destruct (step m1) as [m2|] eqn:E2; simpl; [|done]. intros E3.
    eapply run_inv_step; eauto.
Qed.

(** A run of [k] time-steps that ends normally is in the expected state. *)
Lemma run_spec params gen bound (k : nat) m :
  loop_bound params = Py.Ok bound → run params gen k = Py.Ok m →
  run_inv params gen (Z.of_nat (Py.range bound)) k m.
Proof.
  intros Hb. unfold run.
  destruct (update (setup params gen)) as [m0|] eqn:E0; simpl; [|done].
  apply sim_steps_inv; [done|]. by apply run_inv_start.
Qed.

Lemma update_model_inv params m m' :
  model_inv params m → update m = Py.Ok m' →
  model_inv params m' ∧ buttons m' = buttons m ∧ threads m' = threads m ∧
  ∃ row, log m' = log m ++ [row].
Proof.
  intros Hinv Hm'.
  pose proof (update_needs_agents params m m' Hinv Hm') as Hn.
  destruct (update_spec params m Hinv Hn) as (M & _ & Heq).
  rewrite Heq in Hm'. injection Hm' as <-.
  cbn [p buttons agents threads log random drawn].
  split; [|eauto].
  split; cbn [p buttons agents threads log random drawn]; apply Hinv.
Qed.

Lemma step_loop_bound params m m' :
  model_inv params m → step m = Py.Ok m' → ∃ bound, loop_bound params = Py.Ok bound.
Proof.
  intros Hinv Hm'. unfold step in Hm'. rewrite (inv_p _ _ Hinv) in Hm'.
  destruct (loop_bound params); [eauto|done].
Qed.

Lemma sim_steps_model_inv params m0 (k : nat) :
  ∀ m, model_inv params m0 → sim_steps k m0 = Py.Ok m →
    model_inv params m ∧ ∃ rows, log m = log m0 ++ rows.
Proof.
  induction k as [|k IH]; intros m Hinv0; simpl.
  - intros [= <-]. split; [done|]. exists []. by rewrite app_nil_r.
  - destruct (sim_steps k m0) as [m1|] eqn:E1; simpl; [|done].
    destruct (step m1) as [m2|] eqn:E2; simpl; [|done]. intros E3.
    destruct (IH m1 Hinv0 eq_refl) as [Hinv1 [rows Hrows]].
    destruct (step_loop_bound params m1 m2 Hinv1 E2) as [bound Hb].
    destruct (step_inv params bound m1 m2 Hinv1 Hb E2) as (Hinv2 & _ & _ & Hl2 & _).
    destruct (update_model_inv params m2 m Hinv2 E3) as (Hinv3 & _ & _ & row & Hl3).
    split; [done|]. exists (rows ++ [row]).
    by rewrite Hl3, Hl2, Hrows, app_assoc.
Qed.

(** A run that took a step has evaluated its loop bound. *)
Lemma run_loop_bound params gen (k : nat) m :
  run params gen (S k) = Py.Ok m → ∃ bound, loop_bound params = Py.Ok bound.
Proof.
  unfold run.
  destruct (update (setup params gen)) as [m0|] eqn:E0; simpl; [|done].
  destruct (sim_steps k m0) as [m1|] eqn:E1; simpl; [|done].
  destruct (step m1) as [m2|] eqn:E2; simpl; [|done]. intros _.
  destruct (update_model_inv params _ m0 (setup_inv params gen) E0) as [Hinv0 _].
  destruct (sim_steps_model_inv params m0 k m1 Hinv0 E1) as [Hinv1 _].
  by eapply step_loop_bound.
Qed.

(** Every run that ends normally satisfies the invariants, whatever its
    length. *)
Lemma run_inv_exists params gen (k : nat) m :
  run params gen k = Py.Ok m →
  ∃ per_step, run_inv params gen per_step k m.
Proof.
  destruct k as [|k].
  - unfold run. destruct (update (setup params gen)) as [m0|] eqn:E0; simpl; [|done].
    intros [= <-]. exists 0. by apply run_inv_start.
  - intros Hrun. destruct (run_loop_bound params gen k m Hrun) as [bound Hb].
    exists (Z.of_nat (Py.range bound)). by apply run_spec.
Qed.

(** When a run ends normally. *)
Lemma run_ok params gen bound (k : nat) :
  1 ≤ n params → loop_bound params = Py.Ok bound → 2 ≤ n params ∨ bound ≤ 0 →
  ∃ m, run params gen k = Py.Ok m.
Proof.
  intros Hn Hb Hcase.
  destruct (update_spec params (setup params gen) (setup_inv params gen) Hn)
    as (M0 & _ & E0).
  induction k as [|k IH].
  - unfold run. rewrite E0. simpl. eauto.
  - destruct IH as [m1 H1].
    pose proof (run_spec params gen bound k m1 Hb H1) as Hrun.
    destruct (step_ok params bound m1 (run_model _ _ _ _ _ Hrun) Hb Hcase) as [m2 H2].
    destruct (step_inv params bound m1 m2 (run_model _ _ _ _ _ Hrun) Hb H2) as [Hinv2 _].
    destruct (update_spec params m2 Hinv2 Hn) as (M & _ & E3).
    unfold run in *. rewrite E0 in *. simpl in *. rewrite H1. simpl. rewrite H2. simpl.
    rewrite E3. eauto.
Qed.

End run_facts.

(** ** States of a run *)

Section reachable_facts.
Implicit Types (m : ButtonModel) (params : Params).

(** The invariant holds after every time-step, and between the iterations
    of the loop of the step that follows. *)
Lemma run_model_inv params gen (k : nat) m :
  run params gen k = Py.Ok m → model_inv params m ∧ 1 ≤ n params.
Proof.
  intros Hrun. destruct (run_inv_exists params gen k m Hrun) as [B HB].
  split; [apply HB|].
  unfold run in Hrun.
  destruct (update (setup params gen)) as [m0|] eqn:E0; simpl in Hrun; [|done].
  by eapply update_needs_agents, E0; apply setup_inv.
Qed.

Lemma mid_step_inv params gen (k j : nat) m0 m :
  run params gen k = Py.Ok m0 → repeat_body j m0 = Py.Ok m → model_inv params m.
Proof.
  intros [Hinv0 _]%run_model_inv Hm.
  by destruct (repeat_body_inv params j m0 m Hinv0 Hm) as [? _].
Qed.

(** The first row of the log is the one recorded at time 0. *)
Lemma run_first_row params gen (k : nat) m0 m :
  update (setup params gen) = Py.Ok m0 → run params gen k = Py.Ok m →
  log m !! 0%nat = log m0 !! 0%nat ∧ length (log m0) = 1%nat.
Proof.
  intros E0 Hrun. unfold run in Hrun. rewrite E0 in Hrun. simpl in Hrun.
  destruct (update_model_inv params _ m0 (setup_inv params gen) E0)
    as (Hinv0 & _ & _ & row & Hl0).
  simpl in Hl0.
  destruct (sim_steps_model_inv params m0 k m Hinv0 Hrun) as [_ [rows Hrows]].
  rewrite Hrows, Hl0. done.
Qed.

(** The two nodes of a sample are different. *)
Lemma sample_distinct params m (e : nat * nat) (u v : nat) :
  model_inv params m → Ap.sample2 (agents m) e = Some (u, v) → u ≠ v.
Proof.
  intros Hinv. rewrite (inv_agents _ _ Hinv).
  destruct (decide (2 ≤ Z.to_nat (n params))%nat) as [Hn|Hn].
  - destruct (sample2_seq (Z.to_nat (n params)) e Hn) as (u' & v' & -> & _ & _ & Hne).
    by intros [= <- <-].
  - rewrite sample2_short; [done|]. rewrite length_seq. lia.
Qed.

(** With a single button, a step with a positive loop bound raises. *)
Lemma step_single_raises params bound m :
  model_inv params m → n params < 2 → loop_bound params = Py.Ok bound →
  1 ≤ bound → step m = Py.Raise Py.ValueError.
Proof.
  intros Hinv Hn Hb Hpos. unfold step. rewrite (inv_p _ _ Hinv), Hb. simpl.
  unfold Py.range. destruct (Z.to_nat bound) as [|c] eqn:E; [lia|]. simpl.
  by rewrite (add_thread_short params m Hinv Hn).
Qed.

(** A thread between two nodes already tied leaves the graph as it is. *)
Lemma add_thread_present params m (u v : nat) :
  model_inv params m →
  Ap.sample2 (agents m) (random m (drawn m)) = Some (u, v) →
  edge (buttons m) u v →
  add_thread m = Py.Ok
    {| p := p m; buttons := buttons m; agents := agents m;
       threads := threads m + 1; log := log m; random := random m;
       drawn := S (drawn m) |}.
Proof.
  intros Hinv Hs He. unfold add_thread. rewrite Hs. simpl.
  by rewrite (add_edge_present _ u v (inv_wf _ _ Hinv) He).
Qed.

End reachable_facts.

(** ** The claims *)

(** C7: for every [n ≥ 1], [setup] creates exactly [n] nodes, one per agent,
    all of them isolated (no node has a neighbour, the graph has zero
    edges), and sets the [threads] counter to zero. *)
Theorem setup_creates_isolated_nodes (params : Params) (gen : nat → nat * nat) :
  1 ≤ n params →
  let m := setup params gen in
  Z.of_nat (length (Nx.nodes (buttons m))) = n params ∧
  NoDup (Nx.nodes (buttons m)) ∧
  Z.of_nat (length (agents m)) = n params ∧
  (∀ u, Nx.neighbors (buttons m) u = ∅) ∧
  Nx.number_of_edges (buttons m) = 0%nat ∧
  threads m = 0.
Proof.
  intros Hn m. subst m.
  pose proof (setup_nodes params gen) as Hnodes.
  split; [|split; [|split; [|split; [|split]]]].
  - rewrite Hnodes, length_seq. lia.
  - rewrite Hnodes. apply NoDup_seq.
  - change (agents (setup params gen)) with (Nx.nodes (buttons (setup params gen))).
    rewrite Hnodes, length_seq. lia.
  - apply setup_isolated.
  - apply isolated_no_edges, setup_isolated.
  - done.
Qed.

Lemma setup_creates_isolated_nodes_witness :
  1 ≤ n ten_half ∧
  Z.of_nat (length (Nx.nodes (buttons (setup ten_half spread)))) = 10 ∧
  Nx.number_of_edges (buttons (setup ten_half spread)) = 0%nat ∧
  threads (setup ten_half spread) = 0.
Proof.
  assert (H : 1 ≤ n ten_half) by (simpl; lia).
  split; [exact H|].
  destruct (setup_creates_isolated_nodes ten_half spread H) as (H1 & _ & _ & _ & H5 & H6).
  split; [exact H1|]. split; [exact H5|exact H6].
Defined.

(** C5: for every [n ≥ 1], the first recorded [max_cluster_size], the one
    of the [update] that follows [setup], is [1 / n]: every node is
    isolated, so the biggest cluster has one node. *)
Theorem first_max_cluster_size (params : Params) (gen : nat → nat * nat) :
  1 ≤ n params →
  ∃ m0 row,
    update (setup params gen) = Py.Ok m0 ∧
    log m0 = [row] ∧
    biggest_cluster (buttons (setup params gen)) = Py.Ok 1 ∧
    max_cluster_size row = (inject_Z 1 / inject_Z (n params))%Q ∧
    ∀ (k : nat) m, run params gen k = Py.Ok m → log m !! 0%nat = Some row.
Proof.
  intros Hn.
  pose proof (setup_inv params gen) as Hinv.
  destruct (update_spec params _ Hinv Hn) as (M & HM & Heq).
  assert (HM1 : biggest_cluster (buttons (setup params gen)) = Py.Ok 1).
  { apply isolated_biggest_cluster.
    - apply Hinv.
    - rewrite (inv_nodes _ _ Hinv). destruct (Z.to_nat (n params)) eqn:E; [lia|done].
    - apply setup_isolated. }
  rewrite HM in HM1. injection HM1 as ->.
  eexists _, _. split; [exact Heq|]. simpl. split; [done|]. split; [done|].
  split; [done|].
  intros k m Hrun.
  destruct (run_first_row params gen k _ m Heq Hrun) as [-> _]. done.
Qed.

Lemma first_max_cluster_size_witness :
  1 ≤ n ten_half ∧
  ∃ m0 row,
    update (setup ten_half spread) = Py.Ok m0 ∧
    log m0 = [row] ∧
    max_cluster_size row = (inject_Z 1 / inject_Z 10)%Q.
Proof.
  assert (H : 1 ≤ n ten_half) by (simpl; lia).
  split; [exact H|].
  destruct (first_max_cluster_size ten_half spread H) as (m0 & row & H1 & H2 & _ & H4 & _).
  exists m0, row. split; [exact H1|]. split; [exact H2|exact H4].
Defined.

(** C10: in every run the node set of the graph is fixed by [setup]: after
    any number of time-steps the graph has exactly the [n] nodes created by
    [setup]; the iterations of [step] only add edges between these nodes,
    and [update] leaves the graph as it is. *)
Theorem node_set_is_fixed (params : Params) (gen : nat → nat * nat) (k : nat)
    (m : ButtonModel) :
  run params gen k = Py.Ok m →
  Nx.nodes (buttons m) = Nx.nodes (buttons (setup params gen)) ∧
  Z.of_nat (length (Nx.nodes (buttons m))) = n params ∧
  (∀ (j : nat) m', repeat_body j m = Py.Ok m' →
     Nx.nodes (buttons m') = Nx.nodes (buttons m)) ∧
  (∀ m', step m = Py.Ok m' → Nx.nodes (buttons m') = Nx.nodes (buttons m)) ∧
  (∀ m', update m = Py.Ok m' → buttons m' = buttons m).
Proof.
  intros Hrun. destruct (run_model_inv params gen k m Hrun) as [Hinv Hn].
  split; [|split; [|split; [|split]]].
  - by rewrite (inv_nodes _ _ Hinv), setup_nodes.
  - rewrite (inv_nodes _ _ Hinv), length_seq. lia.
  - intros j m' Hm'.
    destruct (repeat_body_inv params j m m' Hinv Hm') as [Hinv' _].
    by rewrite (inv_nodes _ _ Hinv), (inv_nodes _ _ Hinv').
  - intros m' Hm'.
    destruct (step_loop_bound params m m' Hinv Hm') as [bound Hb].
    destruct (step_inv params bound m m' Hinv Hb Hm') as [Hinv' _].
    by rewrite (inv_nodes _ _ Hinv), (inv_nodes _ _ Hinv').
  - intros m' Hm'. by destruct (update_model_inv params m m' Hinv Hm') as (_ & ? & _).
Qed.

Lemma node_set_is_fixed_witness :
  ∃ m, run ten_half spread 2 = Py.Ok m ∧
    Nx.nodes (buttons m) = Nx.nodes (buttons (setup ten_half spread)) ∧
    Z.of_nat (length (Nx.nodes (buttons m))) = 10.
Proof.
  eexists. split; [vm_compute; reflexivity|].
  match goal with
  | |- Nx.nodes (buttons ?m) = _ ∧ _ =>
      destruct (node_set_is_fixed ten_half spread 2 m) as (H1 & H2 & _);
        [vm_compute; reflexivity|]
  end.
  split; [exact H1|exact H2].
Defined.

(** C6: within a run, the recorded [max_cluster_size] values never
    decrease: of two rows of the log, the later one holds a value greater
    than or equal to that of the earlier one. *)
Theorem max_cluster_size_non_decreasing (params : Params) (gen : nat → nat * nat)
    (k : nat) (m : ButtonModel) (i j : nat) (r1 r2 : Row) :
  run params gen k = Py.Ok m →
  (i ≤ j)%nat → log m !! i = Some r1 → log m !! j = Some r2 →
  (max_cluster_size r1 <= max_cluster_size r2)%Q.
Proof.
  intros Hrun Hij H1 H2.
  destruct (run_inv_exists params gen k m Hrun) as [B HB].
  by eapply (log_sorted m (run_log _ _ _ _ _ HB) i j).
Qed.

Lemma max_cluster_size_non_decreasing_witness :
  ∃ m r1 r2, run ten_half spread 2 = Py.Ok m ∧
    log m !! 1%nat = Some r1 ∧ log m !! 2%nat = Some r2 ∧
    (max_cluster_size r1 <= max_cluster_size r2)%Q.
Proof.
  eexists _, _, _.
  split; [vm_compute; reflexivity|].
  split; [vm_compute; reflexivity|].
  split; [vm_compute; reflexivity|].
  eapply (max_cluster_size_non_decreasing ten_half spread 2 _ 1 2).
  - vm_compute. reflexivity.
  - lia.
  - vm_compute. reflexivity.
  - vm_compute. reflexivity.
Defined.

(** C9, amended: when the product [n * speed] as the program computes it
    (rounded to the nearest binary64 when [speed] is a [float]) lies in
    [[0, 1)], the loop bound [int(n * speed)] is 0 and [step] does nothing:
    the model it returns is the one it was given (same graph, same
    [threads]), even for a speed that is strictly positive. *)
Theorem step_without_edges (m : ButtonModel) (x : Py.number) (q : Q) :
  Py.mul_int (n (p m)) (speed (p m)) = Py.Ok x →
  Py.value x = Some q → (0 <= q)%Q → (q < 1)%Q →
  loop_bound (p m) = Py.Ok 0 ∧ step m = Py.Ok m.
Proof.
  intros Hx Hq H0 H1.
  assert (Hb : loop_bound (p m) = Py.Ok 0).
  { unfold loop_bound. rewrite Hx. simpl. by eapply int_small. }
  split; [done|]. unfold step. by rewrite Hb.
Qed.

Lemma step_without_edges_witness :
  Py.mul_int (n ten_twentieth) (speed ten_twentieth) = Py.Ok (Py.Float Py.half) ∧
  Py.value (Py.Float Py.half) = Some (inject_Z 4503599627370496 / inject_Z (2 ^ 53))%Q ∧
  (0 <= inject_Z 4503599627370496 / inject_Z (2 ^ 53))%Q ∧
  (inject_Z 4503599627370496 / inject_Z (2 ^ 53) < 1)%Q ∧
  Py.nonneg (speed ten_twentieth) = true ∧
  step (setup ten_twentieth spread) = Py.Ok (setup ten_twentieth spread).
Proof.
  assert (H1 : Py.mul_int (n (p (setup ten_twentieth spread)))
                 (speed (p (setup ten_twentieth spread))) = Py.Ok (Py.Float Py.half))
    by (vm_compute; reflexivity).
  assert (H2 : Py.value (Py.Float Py.half)
               = Some (inject_Z 4503599627370496 / inject_Z (2 ^ 53))%Q) by reflexivity.
  assert (H3 : (0 <= inject_Z 4503599627370496 / inject_Z (2 ^ 53))%Q)
    by (vm_compute; discriminate).
  assert (H4 : (inject_Z 4503599627370496 / inject_Z (2 ^ 53) < 1)%Q)
    by (vm_compute; reflexivity).
  split; [exact H1|]. split; [exact H2|]. split; [exact H3|]. split; [exact H4|].
  split; [reflexivity|].
  exact (proj2 (step_without_edges (setup ten_twentieth spread) _ _ H1 H2 H3 H4)).
Defined.

(** C2, counterexample: with [n = 1] and [speed = 1], both within the
    stated range, [setup] and the first [update] complete but [step] raises
    [ValueError]: [random(2)] cannot sample two of one agent. *)
Lemma one_button_step_raises :
  1 ≤ n one_button ∧ Py.nonneg (speed one_button) = true ∧
  loop_bound one_button = Py.Ok 1 ∧
  (∃ m0, update (setup one_button stuck) = Py.Ok m0 ∧
         step m0 = Py.Raise Py.ValueError) ∧
  run one_button stuck 1 = Py.Raise Py.ValueError.
Proof.
  split; [simpl; lia|]. split; [reflexivity|]. split; [reflexivity|]. split.
  - eexists. split; [vm_compute; reflexivity|]. vm_compute. reflexivity.
  - vm_compute. reflexivity.
Qed.

(** C2, amended: for every [n ≥ 1] and every speed whose loop bound
    [int(n * speed)] is defined, a run of any length completes without an
    error when there are two buttons or more, or when the loop bound is not
    positive; the state it reaches is consistent, and [step] and [update]
    complete from it as well. With a single button and a positive loop
    bound, the first [step] raises. *)
Theorem run_completes (params : Params) (gen : nat → nat * nat) (bound : Z)
    (k : nat) :
  1 ≤ n params → loop_bound params = Py.Ok bound →
  (2 ≤ n params ∨ bound ≤ 0 →
     ∃ m, run params gen k = Py.Ok m ∧ model_inv params m ∧
       (∃ m', step m = Py.Ok m') ∧ (∃ m', update m = Py.Ok m')) ∧
  (n params = 1 → 1 ≤ bound → run params gen (S k) = Py.Raise Py.ValueError).
Proof.
  intros Hn Hb. split.
  - intros Hcase.
    destruct (run_ok params gen bound k Hn Hb Hcase) as [m Hm].
    destruct (run_model_inv params gen k m Hm) as [Hinv _].
    exists m. split; [done|]. split; [done|]. split.
    + by apply (step_ok params bound).
    + destruct (update_spec params m Hinv Hn) as (M & _ & Heq). eauto.
  - intros Hn1 Hpos.
    destruct (update_spec params _ (setup_inv params gen) Hn) as (M & _ & Heq).
    destruct (update_model_inv params _ _ (setup_inv params gen) Heq) as [Hinv0 _].
    unfold run. rewrite Heq.
    match goal with
    | |- mbind _ (Py.Ok ?m) = _ =>
        set (m0 := m) in *; change (sim_steps (S k) m0 = Py.Raise Py.ValueError)
    end.
    induction k as [|k IH].
    + simpl. by rewrite (step_single_raises params bound m0 Hinv0) by (done || lia).
    + change (sim_steps (S (S k)) m0) with
        (m1 ← sim_steps (S k) m0; m2 ← step m1; update m2).
      by rewrite IH.
Qed.

Lemma run_completes_witness :
  1 ≤ n ten_half ∧ loop_bound ten_half = Py.Ok 5 ∧
  ∃ m, run ten_half spread 2 = Py.Ok m ∧
    (∃ m', step m = Py.Ok m') ∧ (∃ m', update m = Py.Ok m').
Proof.
  assert (H1 : 1 ≤ n ten_half) by (simpl; lia).
  assert (H2 : loop_bound ten_half = Py.Ok 5) by (vm_compute; reflexivity).
  split; [exact H1|]. split; [exact H2|].
  destruct (proj1 (run_completes ten_half spread 5 2 H1 H2)) as (m & Hm & _ & Hs & Hu).
  - left. simpl. lia.
  - exists m. split; [exact Hm|]. split; [exact Hs|exact Hu].
Defined.

(** With an infinite speed the loop bound itself raises. *)
Example infinite_speed_raises :
  Py.nonneg (Py.Float (S754_infinity false)) = true ∧
  loop_bound {| n := 10; speed := Py.Float (S754_infinity false) |}
    = Py.Raise Py.OverflowError.
Proof. split; reflexivity. Qed.

(** C3, counterexample: with [n = 2] and [speed = 1] a step draws twice;
    with a generator that repeats its sample both draws tie button 0 to
    button 1. The second thread joins two nodes that already have an edge,
    and the graph still has one edge after it, while [threads] is 2. *)
Lemma duplicate_thread_not_counted :
  ∃ m0 m1 m2,
    run two_buttons stuck 0 = Py.Ok m0 ∧
    add_thread m0 = Py.Ok m1 ∧
    Ap.sample2 (agents m1) (random m1 (drawn m1)) = Some (0%nat, 1%nat) ∧
    Nx.has_edge (buttons m1) 0 1 = true ∧
    add_thread m1 = Py.Ok m2 ∧
    step m0 = Py.Ok m2 ∧
    Nx.number_of_edges (buttons m1) = 1%nat ∧
    Nx.number_of_edges (buttons m2) = 1%nat ∧
    threads m2 = 2.
Proof.
  eexists _, _, _.
  repeat (split; [vm_compute; reflexivity|]).
  vm_compute. reflexivity.
Qed.

(** C3, amended: the graph is a simple undirected graph, which keeps no
    duplicate edge: at any point of a run, when the loop of [step] ties two
    nodes that already have an edge, the graph (and so its edge count) is
    unchanged; only the [threads] counter goes up by one. *)
Theorem duplicate_thread_keeps_graph (params : Params) (gen : nat → nat * nat)
    (k j : nat) (m0 m : ButtonModel) (u v : nat) :
  run params gen k = Py.Ok m0 → repeat_body j m0 = Py.Ok m →
  Ap.sample2 (agents m) (random m (drawn m)) = Some (u, v) →
  Nx.has_edge (buttons m) u v = true →
  ∃ m', add_thread m = Py.Ok m' ∧
    buttons m' = buttons m ∧
    Nx.number_of_edges (buttons m') = Nx.number_of_edges (buttons m) ∧
    threads m' = threads m + 1.
Proof.
  intros Hrun Hm Hs He.
  pose proof (mid_step_inv params gen k j m0 m Hrun Hm) as Hinv.
  apply bool_decide_eq_true in He.
  eexists. split; [by apply (add_thread_present params m u v)|]. done.
Qed.

Lemma duplicate_thread_keeps_graph_witness :
  ∃ m0 m m',
    run two_buttons stuck 0 = Py.Ok m0 ∧ repeat_body 1 m0 = Py.Ok m ∧
    Ap.sample2 (agents m) (random m (drawn m)) = Some (0%nat, 1%nat) ∧
    Nx.has_edge (buttons m) 0 1 = true ∧
    add_thread m = Py.Ok m' ∧ buttons m' = buttons m ∧ threads m' = threads m + 1.
Proof.
  eexists _, _.
  match goal with
  | |- ∃ m', ?R ∧ ?B ∧ ?S ∧ ?E ∧ _ =>
      assert (HR : R) by (vm_compute; reflexivity);
      assert (HB : B) by (vm_compute; reflexivity);
      assert (HS : S) by (vm_compute; reflexivity);
      assert (HE : E) by (vm_compute; reflexivity)
  end.
  destruct (duplicate_thread_keeps_graph two_buttons stuck 0 1 _ _ 0%nat 1%nat HR HB HS HE)
    as (m' & H1 & H2 & _ & H4).
  exists m'. repeat (split; [assumption|]). exact H4.
Defined.

(** C4, counterexample: no parameterization and no sequence of draws reaches
    a state where [random(2)] yields the same node twice or where the graph
    has a node tied to itself. *)
Lemma no_self_loop_reachable :
  ¬ ∃ (params : Params) (gen : nat → nat * nat) (k j : nat) (m0 m : ButtonModel)
      (u : nat),
      run params gen k = Py.Ok m0 ∧ repeat_body j m0 = Py.Ok m ∧
      (Ap.sample2 (agents m) (random m (drawn m)) = Some (u, u) ∨
       edge (buttons m) u u).
Proof.
  intros (params & gen & k & j & m0 & m & u & Hrun & Hm & Hcase).
  pose proof (mid_step_inv params gen k j m0 m Hrun Hm) as Hinv.
  destruct Hcase as [Hs|He].
  - by apply (sample_distinct params m _ u u Hinv Hs).
  - by apply (inv_noloop _ _ Hinv u).
Qed.

(** C4, amended: for every parameterization and every sequence of draws,
    [step] never adds a self-loop: at any point of a run the two nodes of
    the sample taken by [random(2)] are different, and no node of the graph
    is tied to itself. *)
Theorem step_adds_no_self_loop (params : Params) (gen : nat → nat * nat)
    (k j : nat) (m0 m : ButtonModel) :
  run params gen k = Py.Ok m0 → repeat_body j m0 = Py.Ok m →
  (∀ u v, Ap.sample2 (agents m) (random m (drawn m)) = Some (u, v) → u ≠ v) ∧
  (∀ u, ¬ edge (buttons m) u u).
Proof.
  intros Hrun Hm.
  pose proof (mid_step_inv params gen k j m0 m Hrun Hm) as Hinv.
  split.
  - intros u v. by apply (sample_distinct params m).
  - apply Hinv.
Qed.

Lemma step_adds_no_self_loop_witness :
  ∃ m0 m,
    run ten_half spread 1 = Py.Ok m0 ∧ repeat_body 3 m0 = Py.Ok m ∧
    Ap.sample2 (agents m) (random m (drawn m)) = Some (8%nat, 6%nat) ∧
    8%nat ≠ 6%nat ∧ ¬ edge (buttons m) 8 8.
Proof.
  eexists _, _.
  match goal with
  | |- ?R ∧ ?B ∧ ?S ∧ _ =>
      assert (HR : R) by (vm_compute; reflexivity);
      assert (HB : B) by (vm_compute; reflexivity);
      assert (HS : S) by (vm_compute; reflexivity)
  end.
  destruct (step_adds_no_self_loop ten_half spread 1 3 _ _ HR HB) as [H1 H2].
  split; [exact HR|]. split; [exact HB|]. split; [exact HS|].
  split; [exact (H1 _ _ HS)|exact (H2 8%nat)].
Defined.

(** ** Further properties of the graph and of its clusters *)

Section cluster_facts.
Implicit Types (G : Nx.Graph) (c : gset nat) (u v w x : nat).

Lemma reach_stays G u w : graph_wf G → u ∈ Nx.nodes G → reach G u w → w ∈ Nx.nodes G.
Proof.
  intros Hwf Hu Hr. induction Hr; [done|].
  apply IHHr. by eapply (wf_closed G Hwf).
Qed.

Lemma reach_sym G u w : graph_wf G → reach G u w → reach G w u.
Proof.
  intros Hwf Hr. induction Hr as [|a b d Hab _ IH]; [apply rtc_refl|].
  eapply rtc_r; [exact IH|]. by apply (wf_sym G Hwf).
Qed.

(** The nodes reachable from a node are never more than the biggest
    cluster. *)
Lemma reach_set_le_biggest G M v :
  graph_wf G → v ∈ Nx.nodes G → biggest_cluster G = Py.Ok M →
  Z.of_nat (size (Nx.plain_bfs G v)) ≤ M.
Proof.
  intros Hwf Hv [_ Hmax]%biggest_cluster_spec.
  destruct (connected_components_cover G v Hwf Hv) as (c & Hc & Hvc).
  destruct (connected_components_spec G c Hwf Hc) as (v0 & Hv0 & Hcv).
  etrans; [|apply (Hmax c Hc)].
  apply inj_le, subseteq_size. intros w Hw.
  apply Hcv. etrans; [by apply Hcv|]. by apply plain_bfs_spec.
Qed.

(** The biggest cluster has one node at least and [n] nodes at most. *)
Lemma biggest_cluster_bounds G M :
  graph_wf G → biggest_cluster G = Py.Ok M →
  1 ≤ M ≤ Z.of_nat (length (Nx.nodes G)).
Proof.
  intros Hwf [(c & Hc & ->) _]%biggest_cluster_spec.
  destruct (connected_components_spec G c Hwf Hc) as (v & Hv & Hcv).
  split.
  - assert ({[v]} ⊆ c) as Hsub%subseteq_size.
    { intros w ->%elem_of_singleton. apply Hcv, rtc_refl. }
    rewrite size_singleton in Hsub. lia.
  - rewrite <- (size_list_to_set (C := gset nat)) by by apply Hwf.
    apply inj_le, subseteq_size. intros w Hw.
    apply elem_of_list_to_set. eapply reach_stays; [done|exact Hv|]. by apply Hcv.
Qed.

End cluster_facts.

(** ** Further properties of a run *)

Section log_facts.
Implicit Types (m : ButtonModel) (params : Params).

(** Induction along the time-steps of a run that ends normally. *)
Lemma run_induction params gen (P : nat → ButtonModel → Prop) :
  (∀ m0, update (setup params gen) = Py.Ok m0 → P 0%nat m0) →
  (∀ (k : nat) m m1 m2, run params gen k = Py.Ok m → P k m →
     step m = Py.Ok m1 → update m1 = Py.Ok m2 → P (S k) m2) →
  ∀ (k : nat) m, run params gen k = Py.Ok m → P k m.
Proof.
  intros Hbase Hstep k. unfold run in *.
  destruct (update (setup params gen)) as [m0|] eqn:E0; simpl in *; [|done].
  induction k as [|k IH]; intros m; simpl.
  - intros [= <-]. by apply Hbase.
  - destruct (sim_steps k m0) as [ma|] eqn:Ea; simpl; [|done].
    destruct (step ma) as [mb|] eqn:Eb; simpl; [|done]. intros Ec.
    apply (Hstep k ma mb m); [done|by apply IH|done|done].
Qed.

(** The row appended by [update]. *)
Lemma update_row params m m' :
  model_inv params m → update m = Py.Ok m' →
  ∃ M, biggest_cluster (buttons m) = Py.Ok M ∧ 1 ≤ M ≤ n params ∧
    buttons m' = buttons m ∧ threads m' = threads m ∧
    log m' = log m ++
      [{| max_cluster_size := (inject_Z M / inject_Z (n params))%Q;
          threads_to_button := (inject_Z (threads m) / inject_Z (n params))%Q |}].
Proof.
  intros Hinv Hm'.
  pose proof (update_needs_agents params m m' Hinv Hm') as Hn.
  destruct (update_spec params m Hinv Hn) as (M & HM & Heq).
  rewrite Heq in Hm'. injection Hm' as <-.
  exists M. split; [done|]. split; [|done].
  pose proof (biggest_cluster_bounds _ M (inv_wf _ _ Hinv) HM) as HB.
  rewrite (inv_nodes _ _ Hinv), length_seq in HB. lia.
Qed.

(** Every row holds the share of a cluster of [1] to [n] nodes. *)
Lemma run_rows params gen (k : nat) m :
  run params gen k = Py.Ok m →
  ∀ r, r ∈ log m → ∃ M, 1 ≤ M ≤ n params ∧
    max_cluster_size r = (inject_Z M / inject_Z (n params))%Q.
Proof.
  revert k m. apply (run_induction params gen (λ _ m, ∀ r, r ∈ log m → _)).
  - intros m0 E0 r.
    destruct (update_row params _ m0 (setup_inv params gen) E0) as (M & _ & HM & _ & _ & ->).
    simpl. intros ->%list_elem_of_singleton. eauto.
  - intros k m m1 m2 Hrun IH H1 H2 r.
    destruct (run_model_inv params gen k m Hrun) as [Hinv _].
    destruct (step_loop_bound params m m1 Hinv H1) as [bound Hb].
    destruct (step_inv params bound m m1 Hinv Hb H1) as (Hinv1 & _ & _ & Hl1 & _).
    destruct (update_row params m1 m2 Hinv1 H2) as (M & _ & HM & _ & _ & ->).
    rewrite Hl1. intros [Hr| ->%list_elem_of_singleton]%elem_of_app; [by apply IH|].
    simpl. eauto.
Qed.

(** The last row holds the share of the biggest cluster of the graph the
    run ends with. *)
Lemma run_last_row params gen (k : nat) m :
  run params gen k = Py.Ok m →
  ∃ M r, biggest_cluster (buttons m) = Py.Ok M ∧ log m !! k = Some r ∧
    max_cluster_size r = (inject_Z M / inject_Z (n params))%Q.
Proof.
  intros Hrun.
  assert (∃ M r, biggest_cluster (buttons m) = Py.Ok M ∧ last (log m) = Some r ∧
    max_cluster_size r = (inject_Z M / inject_Z (n params))%Q) as (M & r & HM & Hlast & Hr).
  { revert k m Hrun. apply (run_induction params gen (λ _ m, ∃ M r, _)).
    - intros m0 E0.
      destruct (update_row params _ m0 (setup_inv params gen) E0) as (M & HM & _ & Hb & _ & Hl).
      exists M. eexists. rewrite Hb, Hl, last_snoc. done.
    - intros k m m1 m2 Hrun _ H1 H2.
      destruct (run_model_inv params gen k m Hrun) as [Hinv _].
      destruct (step_loop_bound params m m1 Hinv H1) as [bound Hb].
      destruct (step_inv params bound m m1 Hinv Hb H1) as (Hinv1 & _).
      destruct (update_row params m1 m2 Hinv1 H2) as (M & HM & _ & Hb2 & _ & Hl).
      exists M. eexists. rewrite Hb2, Hl, last_snoc. done. }
  exists M, r. split; [done|]. split; [|done].
  destruct (run_inv_exists params gen k m Hrun) as [B HB].
  rewrite last_lookup, (run_length _ _ _ _ _ HB) in Hlast. exact Hlast.
Qed.

Lemma ratio_unit (a d : Z) : 1 ≤ d → (inject_Z a / inject_Z d == 1)%Q ↔ a = d.
Proof.
  intros Hd. unfold Qeq, Qdiv, Qmult, Qinv, inject_Z. simpl.
  destruct d as [|d|d]; [lia| |lia]. simpl. lia.
Qed.

End log_facts.

(** X1: every recorded [max_cluster_size] is the share [M / n] of a
    cluster of [M] buttons with [1 ≤ M ≤ n]; it lies between [1 / n] and
    [1]. *)
Theorem max_cluster_size_bounds (params : Params) (gen : nat → nat * nat)
    (k : nat) (m : ButtonModel) (i : nat) (r : Row) :
  run params gen k = Py.Ok m → log m !! i = Some r →
  (∃ M, 1 ≤ M ≤ n params ∧
     max_cluster_size r = (inject_Z M / inject_Z (n params))%Q) ∧
  (inject_Z 1 / inject_Z (n params) <= max_cluster_size r)%Q ∧
  (max_cluster_size r <= 1)%Q.
Proof.
  intros Hrun Hr.
  destruct (run_model_inv params gen k m Hrun) as [_ Hn].
  destruct (run_rows params gen k m Hrun r) as (M & HM & Heq).
  { by eapply list_elem_of_lookup_2. }
  split; [eauto|]. rewrite Heq. split.
  - apply ratio_le; lia.
  - assert (inject_Z (n params) / inject_Z (n params) == 1)%Q as <-
      by by apply ratio_unit.
    apply ratio_le; lia.
Qed.

Lemma max_cluster_size_bounds_witness :
  ∃ m r, run ten_half spread 2 = Py.Ok m ∧ log m !! 1%nat = Some r ∧
    (inject_Z 1 / inject_Z 10 <= max_cluster_size r)%Q ∧
    (max_cluster_size r <= 1)%Q.
Proof.
  eexists _, _.
  split; [vm_compute; reflexivity|]. split; [vm_compute; reflexivity|].
  eapply (max_cluster_size_bounds ten_half spread 2 _ 1).
  - vm_compute. reflexivity.
  - vm_compute. reflexivity.
Defined.

Section connected_facts.
Implicit Types (G : Nx.Graph) (m : ButtonModel) (params : Params).

(** The biggest cluster holds every node exactly when every node is
    reachable from every other. *)
Lemma biggest_cluster_connected G M :
  graph_wf G → biggest_cluster G = Py.Ok M →
  M = Z.of_nat (length (Nx.nodes G)) ↔
  ∀ u v, u ∈ Nx.nodes G → v ∈ Nx.nodes G → reach G u v.
Proof.
  intros Hwf HM.
  pose proof HM as [(c & Hc & HMc) Hmax]%biggest_cluster_spec.
  destruct (connected_components_spec G c Hwf Hc) as (v0 & Hv0 & Hcv).
  assert (Hsub : c ⊆ list_to_set (Nx.nodes G)).
  { intros w Hw. apply elem_of_list_to_set.
    eapply reach_stays; [done|exact Hv0|]. by apply Hcv. }
  assert (Hsize : size (list_to_set (Nx.nodes G) : gset nat) = length (Nx.nodes G)).
  { apply size_list_to_set, Hwf. }
  split.
  - intros HMn u v Hu Hv.
    assert (c = list_to_set (Nx.nodes G)) as Hall.
    { apply set_subseteq_size_eq; [done|]. rewrite Hsize. lia. }
    assert (Hfrom : ∀ w, w ∈ Nx.nodes G → reach G v0 w).
    { intros w Hw. apply Hcv. rewrite Hall. by apply elem_of_list_to_set. }
    etrans; [apply reach_sym; [done|by apply Hfrom]|by apply Hfrom].
  - intros Hconn.
    assert (size c = length (Nx.nodes G)) as Hcn; [|lia].
    rewrite <- Hsize. f_equal. apply set_eq. intros w. split; [apply Hsub|].
    intros Hw%elem_of_list_to_set. apply Hcv. by apply Hconn.
Qed.

End connected_facts.

(** X2: the value recorded at the end of a run is 1 exactly when the graph
    is connected, that is when every button can be reached from every
    other along threads. *)
Theorem full_share_iff_connected (params : Params) (gen : nat → nat * nat)
    (k : nat) (m : ButtonModel) (r : Row) :
  run params gen k = Py.Ok m → log m !! k = Some r →
  (max_cluster_size r == 1)%Q ↔
  ∀ u v, u ∈ Nx.nodes (buttons m) → v ∈ Nx.nodes (buttons m) →
    reach (buttons m) u v.
Proof.
  intros Hrun Hr.
  destruct (run_model_inv params gen k m Hrun) as [Hinv Hn].
  destruct (run_last_row params gen k m Hrun) as (M & r' & HM & Hr' & Heq).
  rewrite Hr in Hr'. injection Hr' as <-. rewrite Heq, ratio_unit by done.
  rewrite <- (biggest_cluster_connected _ M (inv_wf _ _ Hinv) HM).
  rewrite (inv_nodes _ _ Hinv), length_seq. lia.
Qed.

Lemma full_share_iff_connected_witness :
  ∃ m r, run ten_half spread 2 = Py.Ok m ∧ log m !! 2%nat = Some r ∧
    (max_cluster_size r == 1)%Q ∧ reach (buttons m) 2%nat 9%nat.
Proof.
  eexists _, _.
  match goal with
  | |- ?R ∧ ?L ∧ ?E ∧ _ =>
      assert (HR : R) by (vm_compute; reflexivity);
      assert (HL : L) by (vm_compute; reflexivity);
      assert (HE : E) by (vm_compute; reflexivity)
  end.
  split; [exact HR|]. split; [exact HL|]. split; [exact HE|].
  apply (proj1 (full_share_iff_connected ten_half spread 2 _ _ HR HL) HE).
  - apply list_elem_of_In. vm_compute. do 2 right. left. reflexivity.
  - apply list_elem_of_In. vm_compute. do 9 right. left. reflexivity.
Defined.

(** ** The number of edges *)

Section edge_count_facts.
Implicit Types (G : Nx.Graph) (m : ButtonModel) (params : Params).

Lemma degree_sum_ext (f g : nat → nat) (l : list nat) :
  (∀ w, w ∈ l → f w = g w) →
  foldr (λ w acc, (f w + acc)%nat) 0%nat l = foldr (λ w acc, (g w + acc)%nat) 0%nat l.
Proof.
  induction l as [|a l IH]; intros Hext; simpl; [done|].
  rewrite Hext by by left. rewrite IH; [done|]. intros w Hw. apply Hext. by right.
Qed.

Lemma degree_sum_split (f h : nat → nat) (l : list nat) :
  foldr (λ w acc, (f w + h w + acc)%nat) 0%nat l =
  (foldr (λ w acc, (f w + acc)%nat) 0%nat l + foldr (λ w acc, (h w + acc)%nat) 0%nat l)%nat.
Proof. induction l as [|a l IH]; simpl; [done|]. rewrite IH. lia. Qed.

Lemma indicator_sum (u : nat) (l : list nat) :
  NoDup l → u ∈ l →
  foldr (λ w acc, ((if decide (w = u) then 1 else 0) + acc)%nat) 0%nat l = 1%nat.
Proof.
  induction 1 as [|a l Ha Hl IH]; [by intros ?%elem_of_nil|]. simpl.
  intros [->|Hu]%elem_of_cons.
  - rewrite decide_True by done. f_equal.
    clear -Ha. induction l as [|b l IH']; simpl; [done|].
    rewrite decide_False by (intros ->; apply Ha; by left).
    apply IH'. intros Hin. apply Ha. by right.
  - rewrite decide_False by (by intros ->). by rewrite IH.
Qed.

(** A new edge between two different nodes adds one to the degree of
    each. *)
Lemma degree_add_edge_new G (u v w : nat) :
  graph_wf G → u ≠ v → ¬ edge G u v →
  Nx.degree (Nx.add_edge G u v) w =
  (Nx.degree G w + ((if decide (w = u) then 1 else 0)
                    + (if decide (w = v) then 1 else 0)))%nat.
Proof.
  intros Hwf Hne Hnew. unfold Nx.degree.
  assert (Hnew' : ¬ edge G v u) by (intros He; by apply Hnew, (wf_sym G Hwf)).
  unfold edge in Hnew, Hnew'.
  assert (Hself : w ∈ Nx.neighbors (Nx.add_edge G u v) w ↔ w ∈ Nx.neighbors G w).
  { rewrite add_edge_neighbors. split; [|by left].
    intros [?|[[-> ->]|[-> ->]]]; done. }
  assert (Hsize : size (Nx.neighbors (Nx.add_edge G u v) w) =
    (size (Nx.neighbors G w) + ((if decide (w = u) then 1 else 0)
                                + (if decide (w = v) then 1 else 0)))%nat).
  { destruct (decide (w = u)) as [->|Hwu]; [|destruct (decide (w = v)) as [->|Hwv]].
    - rewrite decide_False by done.
      assert (Nx.neighbors (Nx.add_edge G u v) u = Nx.neighbors G u ∪ {[v]}) as ->.
      { apply set_eq. intros x. rewrite add_edge_neighbors. set_solver. }
      rewrite size_union by set_solver. rewrite size_singleton. lia.
    - assert (Nx.neighbors (Nx.add_edge G u v) v = Nx.neighbors G v ∪ {[u]}) as ->.
      { apply set_eq. intros x. rewrite add_edge_neighbors. set_solver. }
      rewrite size_union by set_solver. rewrite size_singleton. lia.
    - assert (Nx.neighbors (Nx.add_edge G u v) w = Nx.neighbors G w) as ->.
      { apply set_eq. intros x. rewrite add_edge_neighbors. set_solver. }
      lia. }
  rewrite Hsize.
  destruct (decide (w ∈ Nx.neighbors (Nx.add_edge G u v) w)) as [Hin|Hin];
    destruct (decide (w ∈ Nx.neighbors G w)) as [Hin'|Hin']; try lia; tauto.
Qed.

(** [add_edge] on two different nodes of the graph: one more edge when
    the nodes were not adjacent, none otherwise. *)
Lemma number_of_edges_add_edge G (u v : nat) :
  graph_wf G → u ∈ Nx.nodes G → v ∈ Nx.nodes G → u ≠ v →
  Nx.number_of_edges (Nx.add_edge G u v) =
  (Nx.number_of_edges G + (if Nx.has_edge G u v then 0 else 1))%nat.
Proof.
  intros Hwf Hu Hv Hne. unfold Nx.has_edge.
  destruct (decide (v ∈ Nx.neighbors G u)) as [He|He].
  - rewrite bool_decide_eq_true_2 by done. rewrite add_edge_present by done. lia.
  - rewrite bool_decide_eq_false_2 by done.
    unfold Nx.number_of_edges. rewrite add_edge_nodes by done.
    rewrite (degree_sum_ext _ _ _ (λ w _, degree_add_edge_new G u v w Hwf Hne He)).
    rewrite degree_sum_split, degree_sum_split.
    rewrite !indicator_sum by (done || apply Hwf).
    set (s := foldr _ _ _).
    replace (s + (1 + 1))%nat with (1 * 2 + s)%nat by lia.
    rewrite Nat.div_add_l by done. lia.
Qed.

Lemma add_thread_edges params m m' (u v : nat) :
  model_inv params m →
  Ap.sample2 (agents m) (random m (drawn m)) = Some (u, v) →
  add_thread m = Py.Ok m' →
  Nx.number_of_edges (buttons m') =
  (Nx.number_of_edges (buttons m) + (if Nx.has_edge (buttons m) u v then 0 else 1))%nat.
Proof.
  intros Hinv Hs Hm'.
  destruct (decide (n params < 2)) as [Hn|Hn].
  { by rewrite (add_thread_short params m) in Hm'. }
  destruct (add_thread_spec params m Hinv) as (u' & v' & Hs' & Hne & Hu & Hv & Heq); [lia|].
  rewrite Hs in Hs'. injection Hs' as <- <-.
  rewrite Heq in Hm'. injection Hm' as <-. cbn [buttons].
  apply number_of_edges_add_edge; [apply Hinv|done..].
Qed.

Lemma repeat_body_edges params (count : nat) :
  ∀ m m', model_inv params m → repeat_body count m = Py.Ok m' →
    Z.of_nat (Nx.number_of_edges (buttons m)) ≤ Z.of_nat (Nx.number_of_edges (buttons m')) ∧
    Z.of_nat (Nx.number_of_edges (buttons m')) - threads m' ≤
    Z.of_nat (Nx.number_of_edges (buttons m)) - threads m.
Proof.
  induction count as [|count IH]; intros m m' Hinv; simpl.
  - intros [= <-]. lia.
  - destruct (add_thread m) as [m1|] eqn:E1; simpl; [|done]. intros Hm'.
    destruct (add_thread_inv params m m1 Hinv E1) as (Hinv1 & Ht1 & _).
    destruct (IH m1 m' Hinv1 Hm') as [IH1 IH2].
    destruct (Ap.sample2 (agents m) (random m (drawn m))) as [[u v]|] eqn:Es.
    + pose proof (add_thread_edges params m m1 u v Hinv Es E1) as He.
      destruct (Nx.has_edge (buttons m) u v); lia.
    + unfold add_thread in E1. by rewrite Es in E1.
Qed.

(** The graph never holds more edges than threads were counted. *)
Lemma run_edges params gen (k : nat) m :
  run params gen k = Py.Ok m → Z.of_nat (Nx.number_of_edges (buttons m)) ≤ threads m.
Proof.
  revert k m. apply (run_induction params gen (λ _ m, _ ≤ threads m)).
  - intros m0 E0.
    destruct (update_row params _ m0 (setup_inv params gen) E0) as (M & _ & _ & -> & -> & _).
    rewrite isolated_no_edges by apply setup_isolated. done.
  - intros k m m1 m2 Hrun IH H1 H2.
    destruct (run_model_inv params gen k m Hrun) as [Hinv _].
    destruct (step_loop_bound params m m1 Hinv H1) as [bound Hb].
    destruct (step_inv params bound m m1 Hinv Hb H1) as (Hinv1 & _).
    destruct (update_row params m1 m2 Hinv1 H2) as (M & _ & _ & -> & -> & _).
    unfold step in H1. rewrite (inv_p _ _ Hinv), Hb in H1. simpl in H1.
    destruct (repeat_body_edges params _ m m1 Hinv H1). lia.
Qed.

End edge_count_facts.

(** X3: at any point of a run the graph holds at most as many edges as
    the [threads] counter says, and each thread raises the number of edges
    of the graph by one when its two buttons were not tied yet and by
    nothing when they were. *)
Theorem edges_at_most_threads (params : Params) (gen : nat → nat * nat)
    (k j : nat) (m0 m : ButtonModel) :
  run params gen k = Py.Ok m0 → repeat_body j m0 = Py.Ok m →
  Z.of_nat (Nx.number_of_edges (buttons m)) ≤ threads m ∧
  ∀ u v m', Ap.sample2 (agents m) (random m (drawn m)) = Some (u, v) →
    add_thread m = Py.Ok m' →
    Nx.number_of_edges (buttons m') =
    (Nx.number_of_edges (buttons m) + (if Nx.has_edge (buttons m) u v then 0 else 1))%nat.
Proof.
  intros Hrun Hm.
  destruct (run_model_inv params gen k m0 Hrun) as [Hinv0 _].
  pose proof (mid_step_inv params gen k j m0 m Hrun Hm) as Hinv.
  split.
  - pose proof (run_edges params gen k m0 Hrun).
    destruct (repeat_body_edges params j m0 m Hinv0 Hm). lia.
  - intros u v m'. by apply (add_thread_edges params).
Qed.

Lemma edges_at_most_threads_witness :
  ∃ m0 m, run ten_half spread 2 = Py.Ok m0 ∧ repeat_body 2 m0 = Py.Ok m ∧
    Z.of_nat (Nx.number_of_edges (buttons m)) ≤ threads m ∧ threads m = 12.
Proof.
  eexists _, _.
  match goal with
  | |- ?R ∧ ?B ∧ _ =>
      assert (HR : R) by (vm_compute; reflexivity);
      assert (HB : B) by (vm_compute; reflexivity)
  end.
  split; [exact HR|]. split; [exact HB|].
  split; [exact (proj1 (edges_at_most_threads ten_half spread 2 2 _ _ HR HB))|].
  vm_compute. reflexivity.
Defined.

(** ** One thread merges two clusters at most *)

Section merge_facts.
Implicit Types (G : Nx.Graph) (m : ButtonModel) (params : Params).

(** A path of the graph with the edge [u - v] added either is a path of
    the graph, or starts in the cluster of [u] or [v] and ends there. *)
Lemma reach_add_edge G (u v x w : nat) :
  reach (Nx.add_edge G u v) x w →
  reach G x w ∨ ((reach G x u ∨ reach G x v) ∧ (reach G u w ∨ reach G v w)).
Proof.
  revert w. apply (rtc_ind_r (λ w, reach G x w ∨
    ((reach G x u ∨ reach G x v) ∧ (reach G u w ∨ reach G v w)))).
  { left. apply rtc_refl. }
  intros y z _ Hyz IH.
  apply add_edge_edge in Hyz as [Hyz|[[-> ->]|[-> ->]]].
  - destruct IH as [IH|[HA [IH|IH]]].
    + left. by eapply rtc_r.
    + right. split; [done|]. left. by eapply rtc_r.
    + right. split; [done|]. right. by eapply rtc_r.
  - right. split; [|right; apply rtc_refl].
    destruct IH as [IH|[HA _]]; [by left|done].
  - right. split; [|left; apply rtc_refl].
    destruct IH as [IH|[HA _]]; [by right|done].
Qed.

(** After [add_edge] the biggest cluster has at most twice the size it
    had. *)
Lemma biggest_cluster_add_edge G (u v : nat) (M M' : Z) :
  graph_wf G → u ∈ Nx.nodes G → v ∈ Nx.nodes G →
  biggest_cluster G = Py.Ok M → biggest_cluster (Nx.add_edge G u v) = Py.Ok M' →
  M' ≤ 2 * M.
Proof.
  intros Hwf Hu Hv HM [(c & Hc & ->) _]%biggest_cluster_spec.
  pose proof (add_edge_wf G u v Hwf) as Hwf'.
  destruct (connected_components_spec _ c Hwf' Hc) as (x & Hx & Hcx).
  rewrite add_edge_nodes in Hx by done.
  pose proof (reach_set_le_biggest G M u Hwf Hu HM) as Hsu.
  pose proof (reach_set_le_biggest G M v Hwf Hv HM) as Hsv.
  pose proof (reach_set_le_biggest G M x Hwf Hx HM) as Hsx.
  destruct (decide (u ∈ Nx.plain_bfs G x ∨ v ∈ Nx.plain_bfs G x)) as [Hnear|Hfar].
  - assert (c ⊆ Nx.plain_bfs G u ∪ Nx.plain_bfs G v) as Hsub%subseteq_size.
    { intros w Hw%Hcx%reach_add_edge. apply elem_of_union.
      destruct Hw as [Hxw|[_ [Huw|Hvw]]].
      - assert (reach G x u ∨ reach G x v) as [Hxu|Hxv].
        { destruct Hnear as [H|H]; [left|right]; by apply plain_bfs_spec in H. }
        + left. apply plain_bfs_spec; [done..|].
          etrans; [by apply reach_sym|done].
        + right. apply plain_bfs_spec; [done..|].
          etrans; [by apply reach_sym|done].
      - left. by apply plain_bfs_spec.
      - right. by apply plain_bfs_spec. }
    rewrite size_union_alt in Hsub.
    assert (size (Nx.plain_bfs G v ∖ Nx.plain_bfs G u) ≤ size (Nx.plain_bfs G v))%nat
      by (apply subseteq_size; set_solver).
    lia.
  - assert (c ⊆ Nx.plain_bfs G x) as Hsub%subseteq_size; [|lia].
    intros w Hw%Hcx%reach_add_edge. apply plain_bfs_spec; [done..|].
    destruct Hw as [Hxw|[[Hxu|Hxv] _]]; [done| |].
    + exfalso. apply Hfar. left. by apply plain_bfs_spec.
    + exfalso. apply Hfar. right. by apply plain_bfs_spec.
Qed.

Lemma add_thread_biggest params m m' (M M' : Z) :
  model_inv params m → add_thread m = Py.Ok m' →
  biggest_cluster (buttons m) = Py.Ok M → biggest_cluster (buttons m') = Py.Ok M' →
  M ≤ M' ≤ 2 * M.
Proof.
  intros Hinv Hm' HM HM'.
  destruct (add_thread_inv params m m' Hinv Hm') as (Hinv' & _ & _ & _ & _ & Hedges).
  split.
  - eapply (biggest_cluster_mono (buttons m) (buttons m')); try done;
      [apply Hinv|apply Hinv'|].
    intros w. by rewrite (inv_nodes _ _ Hinv), (inv_nodes _ _ Hinv').
  - destruct (decide (n params < 2)) as [Hn|Hn].
    { by rewrite (add_thread_short params m) in Hm'. }
    destruct (add_thread_spec params m Hinv) as (u & v & _ & _ & Hu & Hv & Heq); [lia|].
    rewrite Heq in Hm'. injection Hm' as <-. cbn [buttons] in HM'.
    by eapply (biggest_cluster_add_edge (buttons m) u v); [apply Hinv|..].
Qed.

Lemma repeat_body_biggest params (count : nat) :
  ∀ m m' (M M' : Z), model_inv params m → repeat_body count m = Py.Ok m' →
    biggest_cluster (buttons m) = Py.Ok M → biggest_cluster (buttons m') = Py.Ok M' →
    M ≤ M' ≤ 2 ^ Z.of_nat count * M.
Proof.
  induction count as [|count IH]; intros m m' M M' Hinv; simpl repeat_body.
  - intros [= <-] HM HM'. rewrite HM in HM'. injection HM' as <-. simpl. lia.
  - destruct (add_thread m) as [m1|] eqn:E1; simpl; [|done]. intros Hm' HM HM'.
    destruct (add_thread_inv params m m1 Hinv E1) as (Hinv1 & _).
    destruct (biggest_cluster_ok (buttons m1)) as [M1 HM1]; [apply Hinv1| |].
    { rewrite (inv_nodes _ _ Hinv1), <- (inv_nodes _ _ Hinv). intros Hnil.
      unfold biggest_cluster, Nx.connected_components in HM. by rewrite Hnil in HM. }
    pose proof (add_thread_biggest params m m1 M M1 Hinv E1 HM HM1).
    pose proof (IH m1 m' M1 M' Hinv1 Hm' HM1 HM').
    rewrite Nat2Z.inj_succ, Z.pow_succ_r by lia.
    assert (0 < 2 ^ Z.of_nat count) by (apply Z.pow_pos_nonneg; lia). nia.
Qed.

End merge_facts.

(** X4: a thread merges two clusters at most: at any point of a run, tying
    two buttons leaves the biggest cluster as it is or makes it bigger, and
    at most twice as big; a whole step with loop bound [b] multiplies its
    size by [2 ^ b] at most. *)
Theorem thread_at_most_doubles (params : Params) (gen : nat → nat * nat)
    (k j : nat) (m0 m : ButtonModel) (M : Z) :
  run params gen k = Py.Ok m0 → repeat_body j m0 = Py.Ok m →
  biggest_cluster (buttons m) = Py.Ok M →
  (∀ m' M', add_thread m = Py.Ok m' → biggest_cluster (buttons m') = Py.Ok M' →
     M ≤ M' ≤ 2 * M) ∧
  (∀ bound m' M', loop_bound params = Py.Ok bound → step m = Py.Ok m' →
     biggest_cluster (buttons m') = Py.Ok M' →
     M ≤ M' ≤ 2 ^ Z.max 0 bound * M).
Proof.
  intros Hrun Hm HM.
  pose proof (mid_step_inv params gen k j m0 m Hrun Hm) as Hinv.
  split.
  - intros m' M' Hm' HM'. by eapply add_thread_biggest.
  - intros bound m' M' Hb Hm' HM'. unfold step in Hm'.
    rewrite (inv_p _ _ Hinv), Hb in Hm'. simpl in Hm'.
    pose proof (repeat_body_biggest params _ m m' M M' Hinv Hm' HM HM') as Hpow.
    unfold Py.range in Hpow.
    replace (Z.of_nat (Z.to_nat bound)) with (Z.max 0 bound) in Hpow by lia. done.
Qed.

Lemma thread_at_most_doubles_witness :
  ∃ m0 m', run ten_half spread 0 = Py.Ok m0 ∧ step m0 = Py.Ok m' ∧
    biggest_cluster (buttons m0) = Py.Ok 1 ∧
    biggest_cluster (buttons m') = Py.Ok 4 ∧ 1 ≤ 4 ≤ 2 ^ Z.max 0 5 * 1.
Proof.
  eexists _, _.
  match goal with
  | |- ?R ∧ ?S ∧ ?B ∧ ?B' ∧ _ =>
      assert (HR : R) by (vm_compute; reflexivity);
      assert (HS : S) by (vm_compute; reflexivity);
      assert (HB : B) by (vm_compute; reflexivity);
      assert (HB' : B') by (vm_compute; reflexivity)
  end.
  split; [exact HR|]. split; [exact HS|]. split; [exact HB|]. split; [exact HB'|].
  refine (proj2 (thread_at_most_doubles ten_half spread 0 0 _ _ 1 HR _ HB) 5 _ 4 _ HS HB').
  - reflexivity.
  - vm_compute. reflexivity.
Defined.

(** ** Degenerate parameters *)

(** X5: with [n <= 0] no agent and no node is created; [update] then
    raises [ValueError], from [max] on the empty list of clusters and
    before any division by [n], so that a run of any length raises
    [ValueError] at time 0. *)
Theorem no_button_raises (params : Params) (gen : nat → nat * nat) :
  n params ≤ 0 →
  Nx.nodes (buttons (setup params gen)) = [] ∧
  agents (setup params gen) = [] ∧
  update (setup params gen) = Py.Raise Py.ValueError ∧
  ∀ k : nat, run params gen k = Py.Raise Py.ValueError.
Proof.
  intros Hn.
  assert (Hnodes : Nx.nodes (buttons (setup params gen)) = []).
  { rewrite setup_nodes. by rewrite Z2Nat.nonpos by done. }
  assert (Hup : update (setup params gen) = Py.Raise Py.ValueError).
  { unfold update, Nx.connected_components. by rewrite Hnodes. }
  split; [done|]. split; [exact Hnodes|]. split; [done|].
  intros k. unfold run. by rewrite Hup.
Qed.

Lemma no_button_raises_witness :
  n {| n := 0; speed := Py.Int 1 |} ≤ 0 ∧
  run {| n := 0; speed := Py.Int 1 |} spread 3 = Py.Raise Py.ValueError.
Proof.
  assert (H : n {| n := 0; speed := Py.Int 1 |} ≤ 0) by (simpl; lia).
  split; [exact H|].
  exact (proj2 (proj2 (proj2 (no_button_raises _ spread H))) 3%nat).
Defined.

(** X6: a speed that is not a number makes [step] raise [ValueError], and
    an infinite speed makes it raise [OverflowError] (for an [n] that
    converts to a non-zero float): the loop bound is evaluated before the
    loop, so that no button is drawn and no edge added; every run of one
    time-step or more then raises the same error. *)
Theorem non_finite_speed_raises (params : Params) (gen : nat → nat * nat)
    (s : bool) (mant : positive) (e : Z) :
  1 ≤ n params →
  Py.float_of_int (n params) = Py.Ok (S754_finite s mant e) →
  (speed params = Py.Float S754_nan →
     loop_bound params = Py.Raise Py.ValueError ∧
     ∀ k : nat, run params gen (S k) = Py.Raise Py.ValueError) ∧
  (∀ sign, speed params = Py.Float (S754_infinity sign) →
     loop_bound params = Py.Raise Py.OverflowError ∧
     ∀ k : nat, run params gen (S k) = Py.Raise Py.OverflowError).
Proof.
  intros Hn Hf.
  assert (Hrun : ∀ err, loop_bound params = Py.Raise err →
            ∀ k : nat, run params gen (S k) = Py.Raise err).
  { intros err Hb k.
    destruct (update_spec params _ (setup_inv params gen) Hn) as (M & _ & Heq).
    destruct (update_model_inv params _ _ (setup_inv params gen) Heq) as [Hinv0 _].
    unfold run. rewrite Heq.
    match goal with
    | |- mbind _ (Py.Ok ?m) = _ =>
        set (m0 := m) in *; change (sim_steps (S k) m0 = Py.Raise err)
    end.
    induction k as [|k IH].
    - simpl. unfold step. by rewrite (inv_p _ _ Hinv0), Hb.
    - change (sim_steps (S (S k)) m0) with
        (m1 ← sim_steps (S k) m0; m2 ← step m1; update m2).
      by rewrite IH. }
  split.
  - intros Hs.
    assert (Hb : loop_bound params = Py.Raise Py.ValueError).
    { unfold loop_bound, Py.mul_int. rewrite Hs, Hf. done. }
    split; [done|]. by apply Hrun.
  - intros sign Hs.
    assert (Hb : loop_bound params = Py.Raise Py.OverflowError).
    { unfold loop_bound, Py.mul_int. rewrite Hs, Hf. done. }
    split; [done|]. by apply Hrun.
Qed.

Lemma non_finite_speed_raises_witness :
  1 ≤ 10 ∧
  Py.float_of_int 10 = Py.Ok (S754_finite false 5629499534213120 (-49)) ∧
  run {| n := 10; speed := Py.Float S754_nan |} spread 2 = Py.Raise Py.ValueError.
Proof.
  assert (H1 : 1 ≤ n {| n := 10; speed := Py.Float S754_nan |}) by (simpl; lia).
  assert (H2 : Py.float_of_int (n {| n := 10; speed := Py.Float S754_nan |})
               = Py.Ok (S754_finite false 5629499534213120 (-49)))
    by (vm_compute; reflexivity).
  split; [exact H1|]. split; [exact H2|].
  exact (proj2 (proj1 (non_finite_speed_raises _ spread _ _ _ H1 H2) eq_refl) 1%nat).
Defined.

(** ** Runs that add no thread, and what the draws decide *)

Section frozen_facts.
Implicit Types (m : ButtonModel) (params : Params).

(** With a single button, a run of one time-step or more raises as soon
    as the loop bound is positive. *)
Lemma run_single_raises params gen bound (k : nat) :
  1 ≤ n params → n params < 2 → loop_bound params = Py.Ok bound → 1 ≤ bound →
  run params gen (S k) = Py.Raise Py.ValueError.
Proof.
  intros Hn Hn1 Hb Hpos.
  destruct (update_spec params _ (setup_inv params gen) Hn) as (M & _ & Heq).
  destruct (update_model_inv params _ _ (setup_inv params gen) Heq) as [Hinv0 _].
  unfold run. rewrite Heq.
  match goal with
  | |- mbind _ (Py.Ok ?m) = _ =>
      set (m0 := m) in *; change (sim_steps (S k) m0 = Py.Raise Py.ValueError)
  end.
  induction k as [|k IH].
  - simpl. by rewrite (step_single_raises params bound m0 Hinv0) by (done || lia).
  - change (sim_steps (S (S k)) m0) with
      (m1 ← sim_steps (S k) m0; m2 ← step m1; update m2).
    by rewrite IH.
Qed.

(** What a run that took a step tells about its parameters. *)
Lemma run_step_needs params gen (k : nat) m :
  run params gen (S k) = Py.Ok m →
  1 ≤ n params ∧ ∃ bound, loop_bound params = Py.Ok bound ∧ (2 ≤ n params ∨ bound ≤ 0).
Proof.
  intros Hrun.
  destruct (run_model_inv params gen (S k) m Hrun) as [_ Hn].
  destruct (run_loop_bound params gen k m Hrun) as [bound Hb].
  split; [done|]. exists bound. split; [done|].
  destruct (decide (2 ≤ n params)) as [|Hn1]; [by left|].
  destruct (decide (bound ≤ 0)) as [|Hpos]; [by right|].
  rewrite (run_single_raises params gen bound k) in Hrun by (done || lia). done.
Qed.

(** Two runs with the same counts per step record the same ratios of
    threads to buttons. *)
Lemma run_inv_same_ratios params gen1 gen2 per_step (k : nat) m1 m2 :
  run_inv params gen1 per_step k m1 → run_inv params gen2 per_step k m2 →
  threads m2 = threads m1 ∧
  threads_to_button <$> log m2 = threads_to_button <$> log m1.
Proof.
  intros H1 H2. split.
  - by rewrite (run_threads _ _ _ _ _ H1), (run_threads _ _ _ _ _ H2).
  - apply list_eq. intros i. rewrite !list_lookup_fmap.
    destruct (decide (i < S k)%nat) as [Hi|Hi].
    + destruct (lookup_lt_is_Some_2 (log m1) i) as [r1 Hr1].
      { by rewrite (run_length _ _ _ _ _ H1). }
      destruct (lookup_lt_is_Some_2 (log m2) i) as [r2 Hr2].
      { by rewrite (run_length _ _ _ _ _ H2). }
      rewrite Hr1, Hr2. simpl. f_equal.
      by rewrite (run_ratio _ _ _ _ _ H1 i r1 Hr1), (run_ratio _ _ _ _ _ H2 i r2 Hr2).
    + rewrite !lookup_ge_None_2; [done|..].
      * rewrite (run_length _ _ _ _ _ H1). lia.
      * rewrite (run_length _ _ _ _ _ H2). lia.
Qed.

End frozen_facts.

(** X7: whether a run ends normally, the [threads] count it ends with and
    the whole series of recorded [threads_to_button] do not depend on the
    random draws: a run that ends normally with one generator ends normally
    with every other, with the same count and the same series. Only
    [max_cluster_size] depends on the draws. *)
Theorem draws_do_not_change_threads (params : Params)
    (gen1 gen2 : nat → nat * nat) (k : nat) (m1 : ButtonModel) :
  run params gen1 k = Py.Ok m1 →
  ∃ m2, run params gen2 k = Py.Ok m2 ∧
    threads m2 = threads m1 ∧ length (log m2) = length (log m1) ∧
    threads_to_button <$> log m2 = threads_to_button <$> log m1.
Proof.
  intros Hrun1. destruct k as [|k].
  - destruct (run_model_inv params gen1 0 m1 Hrun1) as [_ Hn].
    destruct (update_spec params _ (setup_inv params gen2) Hn) as (M & _ & Heq).
    eexists. split; [unfold run; by rewrite Heq|].
    assert (H1 : run_inv params gen1 0 0 m1).
    { unfold run in Hrun1.
      destruct (update (setup params gen1)) as [m0|] eqn:E0; simpl in Hrun1; [|done].
      injection Hrun1 as <-. by apply run_inv_start. }
    pose proof (run_inv_start params gen2 0 _ Heq) as H2.
    destruct (run_inv_same_ratios params gen1 gen2 0 0 m1 _ H1 H2) as [Ht Hl].
    split; [done|]. split; [|done].
    by rewrite (run_length _ _ _ _ _ H1), (run_length _ _ _ _ _ H2).
  - destruct (run_step_needs params gen1 k m1 Hrun1) as (Hn & bound & Hb & Hcase).
    destruct (run_ok params gen2 bound (S k) Hn Hb Hcase) as [m2 Hrun2].
    exists m2. split; [done|].
    pose proof (run_spec params gen1 bound (S k) m1 Hb Hrun1) as H1.
    pose proof (run_spec params gen2 bound (S k) m2 Hb Hrun2) as H2.
    destruct (run_inv_same_ratios params gen1 gen2 _ _ m1 m2 H1 H2) as [Ht Hl].
    split; [done|]. split; [|done].
    by rewrite (run_length _ _ _ _ _ H1), (run_length _ _ _ _ _ H2).
Qed.

Lemma draws_do_not_change_threads_witness :
  ∃ m1 m2, run ten_half spread 2 = Py.Ok m1 ∧ run ten_half stuck 2 = Py.Ok m2 ∧
    threads m2 = threads m1 ∧
    threads_to_button <$> log m2 = threads_to_button <$> log m1.
Proof.
  eexists _.
  match goal with
  | |- ∃ m2, ?R ∧ _ => assert (HR : R) by (vm_compute; reflexivity)
  end.
  destruct (draws_do_not_change_threads ten_half spread stuck 2 _ HR)
    as (m2 & H2 & Ht & _ & Hl).
  exists m2. split; [exact HR|]. split; [exact H2|]. split; [exact Ht|exact Hl].
Defined.

(** X8: when the loop bound [int(n * speed)] is zero or negative, as for a
    negative speed, no step ever ties a button: a run of [k] time-steps
    ends normally with the graph of [setup] and no thread, and its [k + 1]
    rows all hold [max_cluster_size = 1 / n] and [threads_to_button = 0]. *)
Theorem frozen_run (params : Params) (gen : nat → nat * nat) (bound : Z)
    (k : nat) :
  1 ≤ n params → loop_bound params = Py.Ok bound → bound ≤ 0 →
  ∃ m, run params gen k = Py.Ok m ∧
    buttons m = buttons (setup params gen) ∧ threads m = 0 ∧
    log m = replicate (S k)
      {| max_cluster_size := (inject_Z 1 / inject_Z (n params))%Q;
         threads_to_button := (inject_Z 0 / inject_Z (n params))%Q |}.
Proof.
  intros Hn Hb Hneg.
  destruct (run_ok params gen bound k Hn Hb) as [m Hrun]; [by right|].
  exists m. split; [done|]. revert k m Hrun.
  assert (Hfirst : biggest_cluster (buttons (setup params gen)) = Py.Ok 1).
  { apply isolated_biggest_cluster.
    - apply setup_wf.
    - rewrite setup_nodes. destruct (Z.to_nat (n params)) eqn:E; [lia|done].
    - apply setup_isolated. }
  apply (run_induction params gen (λ k m, buttons m = _ ∧ threads m = 0 ∧ log m = _)).
  - intros m0 E0.
    destruct (update_row params _ m0 (setup_inv params gen) E0)
      as (M & HM & _ & Hbm & Ht & Hl).
    rewrite HM in Hfirst. injection Hfirst as ->. by rewrite Hbm, Ht, Hl.
  - intros j m m1 m2 Hrun (IHb & IHt & IHl) H1 H2.
    destruct (run_model_inv params gen j m Hrun) as [Hinv _].
    assert (m1 = m) as ->.
    { unfold step in H1. rewrite (inv_p _ _ Hinv), Hb in H1. simpl in H1.
      unfold Py.range in H1. rewrite Z2Nat.nonpos in H1 by done. by injection H1. }
    destruct (update_row params m m2 Hinv H2) as (M & HM & _ & Hbm & Ht & Hl).
    rewrite IHb, Hfirst in HM. injection HM as <-.
    rewrite Hbm, Ht, Hl, IHb, IHt, IHl. by rewrite (replicate_S_end (S j)).
Qed.

Lemma frozen_run_witness :
  1 ≤ n {| n := 10; speed := Py.Int (-3) |} ∧
  loop_bound {| n := 10; speed := Py.Int (-3) |} = Py.Ok (-30) ∧
  ∃ m, run {| n := 10; speed := Py.Int (-3) |} spread 2 = Py.Ok m ∧
    threads m = 0 ∧ length (log m) = 3%nat.
Proof.
  assert (H1 : 1 ≤ n {| n := 10; speed := Py.Int (-3) |}) by (simpl; lia).
  assert (H2 : loop_bound {| n := 10; speed := Py.Int (-3) |} = Py.Ok (-30))
    by reflexivity.
  split; [exact H1|]. split; [exact H2|].
  destruct (frozen_run _ spread (-30) 2 H1 H2) as (m & Hm & _ & Ht & Hl); [lia|].
  exists m. split; [exact Hm|]. split; [exact Ht|]. rewrite Hl. reflexivity.
Defined.

(** ** The experiment *)

Section experiment_facts.
Implicit Types (m : ButtonModel) (params : Params).

(** The three combinations of the sample, and their loop bounds. *)
Lemma sample_combinations :
  sample = [ {| n := 100; speed := Py.Float twentieth |};
             {| n := 1000; speed := Py.Float twentieth |};
             {| n := 10000; speed := Py.Float twentieth |} ].
Proof. reflexivity. Qed.

Lemma sample_loop_bound params :
  params ∈ sample →
  2 ≤ n params ∧ ∃ bound, loop_bound params = Py.Ok bound ∧ 20 * bound = n params.
Proof.
  rewrite sample_combinations.
  intros [->|[->|[->|[]%elem_of_nil]%elem_of_cons]%elem_of_cons]%elem_of_cons.
  - split; [simpl; lia|]. exists 5. split; [vm_compute; reflexivity|done].
  - split; [simpl; lia|]. exists 50. split; [vm_compute; reflexivity|done].
  - split; [simpl; lia|]. exists 500. split; [vm_compute; reflexivity|done].
Qed.

Lemma ratio_twentieth (t bound d : Z) :
  1 ≤ d → 20 * bound = d →
  (inject_Z (t * bound) / inject_Z d == inject_Z t / inject_Z 20)%Q.
Proof.
  intros Hd Hb. unfold Qeq, Qdiv, Qmult, Qinv, inject_Z. simpl.
  destruct d as [|d|d]; [lia| |lia]. simpl. nia.
Qed.

End experiment_facts.

(** X9: the experiment of the notebook schedules 3 x 25 = 75 runs. Whatever
    the generators, each of them ends normally after 30 time-steps with 31
    rows, and the loop bounds [int(n * 0.05)] are exactly [n / 20] for the
    three values of [n], so that row [t] of every run holds
    [threads_to_button = t / 20]: the runs share one horizontal axis, which
    ends at [3 / 2]. *)
Theorem experiment_runs (gens : nat → nat → nat → nat * nat) :
  length (exp_run gens) = 75%nat ∧
  ∀ outcome, outcome ∈ exp_run gens →
    ∃ params m, params ∈ sample ∧ outcome = Py.Ok m ∧ p m = params ∧
      length (log m) = 31%nat ∧
      20 * threads m = 30 * n params ∧
      ∀ (t : nat) row, log m !! t = Some row →
        (threads_to_button row == inject_Z (Z.of_nat t) / inject_Z 20)%Q.
Proof.
  split; [reflexivity|].
  intros outcome Hin. unfold exp_run in Hin.
  apply list_elem_of_join in Hin as (runs & Hout & Hruns).
  apply elem_of_lookup_imap in Hruns as (sample_id & params & -> & Hparams).
  apply list_elem_of_fmap in Hout as (iteration & -> & _).
  assert (Hmem : params ∈ sample) by by eapply list_elem_of_lookup_2.
  destruct (sample_loop_bound params Hmem) as (Hn & bound & Hb & Hbn).
  destruct (run_ok params (gens sample_id iteration) bound (steps parameter_ranges))
    as [m Hrun]; [lia|done|by left|].
  pose proof (run_spec params _ bound _ m Hb Hrun) as Hinv.
  assert (HB : Z.of_nat (Py.range bound) = bound) by (unfold Py.range; lia).
  rewrite HB in Hinv.
  exists params, m. split; [done|]. split; [done|].
  split; [apply Hinv|]. split; [apply Hinv|]. split.
  - rewrite (run_threads _ _ _ _ _ Hinv). simpl. lia.
  - intros t row Hrow. rewrite (run_ratio _ _ _ _ _ Hinv t row Hrow).
    apply ratio_twentieth; lia.
Qed.

Lemma experiment_runs_witness :
  run {| n := 100; speed := Py.Float twentieth |} spread (steps parameter_ranges)
    ∈ exp_run (λ _ _, spread) ∧
  ∃ m, run {| n := 100; speed := Py.Float twentieth |} spread (steps parameter_ranges)
       = Py.Ok m ∧ length (log m) = 31%nat.
Proof.
  assert (Hin : run {| n := 100; speed := Py.Float twentieth |} spread
                  (steps parameter_ranges) ∈ exp_run (λ _ _, spread)).
  { apply list_elem_of_join.
    exists ((λ iteration, run {| n := 100; speed := Py.Float twentieth |} spread
                            (steps parameter_ranges)) <$> seq 0 iterations).
    split.
    - exact (list_elem_of_fmap_2
               (λ _ : nat, run {| n := 100; speed := Py.Float twentieth |} spread
                             (steps parameter_ranges))
               (seq 0 iterations) 0%nat (list_elem_of_here _ _)).
    - exact (elem_of_lookup_imap_2
               (λ (sample_id : nat) params,
                  (λ iteration : nat, run params spread (steps parameter_ranges))
                  <$> seq 0 iterations)
               sample {| n := 100; speed := Py.Float twentieth |} 0%nat eq_refl). }
  split; [exact Hin|].
  destruct (proj2 (experiment_runs (λ _ _, spread)) _ Hin)
    as (params & m & _ & Hm & _ & Hlen & _).
  exists m. split; [exact Hm|exact Hlen].
Defined.

(** ** The clusters partition the buttons *)

Section partition_facts.
Implicit Types (G : Nx.Graph) (m : ButtonModel) (params : Params).

Lemma plain_bfs_closed G (v : nat) :
  graph_wf G → v ∈ Nx.nodes G → closed G (Nx.plain_bfs G v).
Proof.
  intros Hwf Hv a b Ha Hab. apply plain_bfs_spec; [done..|].
  etrans; [|exact Hab]. by apply plain_bfs_spec.
Qed.

Lemma closed_union G (X Y : gset nat) : closed G X → closed G Y → closed G (X ∪ Y).
Proof.
  intros HX HY a b [Ha|Ha]%elem_of_union Hab; apply elem_of_union; [left|right]; eauto.
Qed.

(** A cluster found later shares no node with what was seen before. *)
Lemma components_loop_fresh G (vs : list nat) :
  graph_wf G → (∀ x, x ∈ vs → x ∈ Nx.nodes G) →
  ∀ seen c, closed G seen → c ∈ Nx.components_loop G vs seen → c ## seen.
Proof.
  intros Hwf. induction vs as [|v vs IH]; intros Hvs seen c Hcl; simpl.
  { by intros ?%elem_of_nil. }
  assert (Hvs' : ∀ x, x ∈ vs → x ∈ Nx.nodes G) by (intros x Hx; apply Hvs; by right).
  assert (Hv : v ∈ Nx.nodes G) by (apply Hvs; by left).
  case_decide as Hseen; [by apply IH|].
  intros [->|Hc]%elem_of_cons.
  - intros w Hw Hws. apply Hseen. apply (Hcl w v Hws).
    apply reach_sym; [done|]. by apply plain_bfs_spec.
  - assert (c ## seen ∪ Nx.plain_bfs G v) as Hd; [|set_solver].
    apply IH; [done| |done]. apply closed_union; [done|by apply plain_bfs_closed].
Qed.

Lemma components_loop_disjoint G (vs : list nat) :
  graph_wf G → (∀ x, x ∈ vs → x ∈ Nx.nodes G) →
  ∀ seen, closed G seen → pairwise_disjoint (Nx.components_loop G vs seen).
Proof.
  intros Hwf. induction vs as [|v vs IH]; intros Hvs seen Hcl; simpl.
  { intros i j ci cj _ Hi. by rewrite lookup_nil in Hi. }
  assert (Hvs' : ∀ x, x ∈ vs → x ∈ Nx.nodes G) by (intros x Hx; apply Hvs; by right).
  assert (Hv : v ∈ Nx.nodes G) by (apply Hvs; by left).
  case_decide as Hseen; [by apply IH|].
  assert (Hcl' : closed G (seen ∪ Nx.plain_bfs G v)).
  { apply closed_union; [done|by apply plain_bfs_closed]. }
  assert (Hhead : ∀ j cj, Nx.components_loop G vs (seen ∪ Nx.plain_bfs G v) !! j = Some cj →
            cj ## Nx.plain_bfs G v).
  { intros j cj Hj.
    assert (cj ## seen ∪ Nx.plain_bfs G v) as Hd; [|set_solver].
    apply (components_loop_fresh G vs Hwf Hvs' _ cj Hcl').
    by eapply list_elem_of_lookup_2. }
  intros [|i] [|j] ci cj Hij Hi Hj; simpl in Hi, Hj.
  - done.
  - injection Hi as <-. symmetry. by eapply Hhead.
  - injection Hj as <-. by eapply Hhead.
  - apply (IH Hvs' _ Hcl' i j); [lia|done..].
Qed.

Lemma components_loop_sizes G (vs : list nat) :
  graph_wf G → (∀ x, x ∈ vs → x ∈ Nx.nodes G) →
  ∀ seen, closed G seen →
    (size seen + sum_list (size <$> Nx.components_loop G vs seen))%nat =
    size (seen ∪ ⋃ Nx.components_loop G vs seen).
Proof.
  intros Hwf. induction vs as [|v vs IH]; intros Hvs seen Hcl; simpl.
  { rewrite (right_id_L ∅ (∪)). lia. }
  assert (Hvs' : ∀ x, x ∈ vs → x ∈ Nx.nodes G) by (intros x Hx; apply Hvs; by right).
  assert (Hv : v ∈ Nx.nodes G) by (apply Hvs; by left).
  case_decide as Hseen; [by apply IH|]. simpl.
  assert (Hcl' : closed G (seen ∪ Nx.plain_bfs G v)).
  { apply closed_union; [done|by apply plain_bfs_closed]. }
  assert (Hd : seen ## Nx.plain_bfs G v).
  { intros w Hws Hw. apply Hseen. apply (Hcl w v Hws).
    apply reach_sym; [done|]. by apply plain_bfs_spec. }
  rewrite (assoc_L (∪)), <- (IH Hvs' _ Hcl'), (size_union _ _ Hd).
  apply Nat.add_assoc.
Qed.

(** The clusters are pairwise disjoint, every node is in one of them, each
    holds a node at least, and their sizes add up to the number of nodes. *)
Lemma connected_components_partition G :
  graph_wf G →
  pairwise_disjoint (Nx.connected_components G) ∧
  (∀ v, v ∈ Nx.nodes G ↔ ∃ c, c ∈ Nx.connected_components G ∧ v ∈ c) ∧
  (∀ c, c ∈ Nx.connected_components G → c ≠ ∅) ∧
  sum_list (size <$> Nx.connected_components G) = length (Nx.nodes G).
Proof.
  intros Hwf.
  assert (Hempty : closed G ∅) by (intros a b Ha; set_solver).
  assert (Hcover : ∀ v, v ∈ Nx.nodes G ↔ ∃ c, c ∈ Nx.connected_components G ∧ v ∈ c).
  { intros v. split; [by apply connected_components_cover|].
    intros (c & Hc & Hv).
    destruct (connected_components_spec G c Hwf Hc) as (v0 & Hv0 & Hcv).
    eapply reach_stays; [done|exact Hv0|]. by apply Hcv. }
  split; [by apply components_loop_disjoint|]. split; [done|]. split.
  - intros c Hc.
    destruct (connected_components_spec G c Hwf Hc) as (v0 & Hv0 & Hcv).
    assert (v0 ∈ c) by (apply Hcv, rtc_refl). set_solver.
  - pose proof (components_loop_sizes G (Nx.nodes G) Hwf (λ x H, H) ∅ Hempty) as Hsum.
    fold (Nx.connected_components G) in Hsum.
    rewrite size_empty, (left_id_L ∅ (∪)) in Hsum. simpl in Hsum. rewrite Hsum.
    rewrite <- (size_list_to_set (C := gset nat) (Nx.nodes G)) by apply Hwf.
    f_equal. apply set_eq. intros v.
    rewrite elem_of_union_list, elem_of_list_to_set, Hcover. naive_solver.
Qed.

End partition_facts.

(** X10: at any point of a run the clusters over which [update] takes its
    maximum are a partition of the buttons: they are pairwise disjoint,
    none is empty, every button is in one of them, and their sizes add up
    to [n]. *)
Theorem clusters_partition_buttons (params : Params) (gen : nat → nat * nat)
    (k j : nat) (m0 m : ButtonModel) :
  run params gen k = Py.Ok m0 → repeat_body j m0 = Py.Ok m →
  let clusters := Nx.connected_components (buttons m) in
  pairwise_disjoint clusters ∧
  (∀ v, v ∈ Nx.nodes (buttons m) ↔ ∃ c, c ∈ clusters ∧ v ∈ c) ∧
  (∀ c, c ∈ clusters → c ≠ ∅) ∧
  Z.of_nat (sum_list (size <$> clusters)) = n params.
Proof.
  intros Hrun Hm clusters.
  destruct (run_model_inv params gen k m0 Hrun) as [_ Hn].
  pose proof (mid_step_inv params gen k j m0 m Hrun Hm) as Hinv.
  destruct (connected_components_partition (buttons m) (inv_wf _ _ Hinv))
    as (H1 & H2 & H3 & H4).
  split; [done|]. split; [done|]. split; [done|].
  unfold clusters. rewrite H4, (inv_nodes _ _ Hinv), length_seq. lia.
Qed.

Lemma clusters_partition_buttons_witness :
  ∃ m0 m, run ten_half spread 1 = Py.Ok m0 ∧ repeat_body 2 m0 = Py.Ok m ∧
    Z.of_nat (sum_list (size <$> Nx.connected_components (buttons m))) = 10 ∧
    length (Nx.connected_components (buttons m)) = 4%nat.
Proof.
  eexists _, _.
  match goal with
  | |- ?R ∧ ?B ∧ _ =>
      assert (HR : R) by (vm_compute; reflexivity);
      assert (HB : B) by (vm_compute; reflexivity)
  end.
  split; [exact HR|]. split; [exact HB|].
  split.
  - exact (proj2 (proj2 (proj2 (clusters_partition_buttons ten_half spread 1 2 _ _ HR HB)))).
  - vm_compute. reflexivity.
Defined.

(** ** The graph saturates *)

Section saturation_facts.
Implicit Types (G : Nx.Graph) (m : ButtonModel) (params : Params).

Lemma degree_below_nodes G (u : nat) :
  graph_wf G → u ∈ Nx.nodes G → ¬ edge G u u →
  (Nx.degree G u ≤ length (Nx.nodes G) - 1)%nat.
Proof.
  intros Hwf Hu Hloop. unfold Nx.degree, edge in *.
  rewrite decide_False by done.
  rewrite <- (size_list_to_set (C := gset nat) (Nx.nodes G)) by apply Hwf.
  rewrite <- (size_singleton (C := gset nat) u).
  rewrite <- size_difference.
  - rewrite Nat.add_0_r. apply subseteq_size. intros w Hw.
    apply elem_of_difference. split.
    + apply elem_of_list_to_set. by eapply (wf_closed G Hwf).
    + intros ->%elem_of_singleton. done.
  - intros w ->%elem_of_singleton. by apply elem_of_list_to_set.
Qed.

Lemma degree_sum_le (f : nat → nat) (l : list nat) (B : nat) :
  (∀ w, w ∈ l → (f w ≤ B)%nat) →
  (foldr (λ w acc, (f w + acc)%nat) 0%nat l ≤ length l * B)%nat.
Proof.
  induction l as [|a l IH]; intros Hle; simpl; [lia|].
  assert (f a ≤ B)%nat by (apply Hle; by left).
  assert (foldr (λ w acc, (f w + acc)%nat) 0%nat l ≤ length l * B)%nat.
  { apply IH. intros w Hw. apply Hle. by right. }
  lia.
Qed.

(** A graph without self-loop on [n] nodes has [n (n - 1) / 2] edges at
    most. *)
Lemma number_of_edges_le G :
  graph_wf G → (∀ u, ¬ edge G u u) →
  (Nx.number_of_edges G ≤ length (Nx.nodes G) * (length (Nx.nodes G) - 1) / 2)%nat.
Proof.
  intros Hwf Hloop. unfold Nx.number_of_edges.
  apply Nat.Div0.div_le_mono, degree_sum_le.
  intros w Hw. by apply degree_below_nodes.
Qed.

End saturation_facts.

(** X11: at any point of a run the graph holds [n (n - 1) / 2] edges at
    most, one for each pair of different buttons, however many threads
    were counted. *)
Theorem edges_at_most_pairs (params : Params) (gen : nat → nat * nat)
    (k j : nat) (m0 m : ButtonModel) :
  run params gen k = Py.Ok m0 → repeat_body j m0 = Py.Ok m →
  Z.of_nat (Nx.number_of_edges (buttons m)) ≤ n params * (n params - 1) / 2.
Proof.
  intros Hrun Hm.
  destruct (run_model_inv params gen k m0 Hrun) as [_ Hn].
  pose proof (mid_step_inv params gen k j m0 m Hrun Hm) as Hinv.
  pose proof (number_of_edges_le (buttons m) (inv_wf _ _ Hinv) (inv_noloop _ _ Hinv)) as Hle.
  rewrite (inv_nodes _ _ Hinv), length_seq in Hle.
  apply inj_le in Hle. etrans; [exact Hle|].
  rewrite Nat2Z.inj_div, Nat2Z.inj_mul, Nat2Z.inj_sub by lia.
  rewrite Z2Nat.id by lia. done.
Qed.

Lemma edges_at_most_pairs_witness :
  ∃ m0 m, run two_buttons stuck 2 = Py.Ok m0 ∧ repeat_body 1 m0 = Py.Ok m ∧
    Z.of_nat (Nx.number_of_edges (buttons m)) ≤ 2 * (2 - 1) / 2 ∧ threads m = 5.
Proof.
  eexists _, _.
  match goal with
  | |- ?R ∧ ?B ∧ _ =>
      assert (HR : R) by (vm_compute; reflexivity);
      assert (HB : B) by (vm_compute; reflexivity)
  end.
  split; [exact HR|]. split; [exact HB|].
  split; [exact (edges_at_most_pairs two_buttons stuck 2 1 _ _ HR HB)|].
  vm_compute. reflexivity.
Defined.

(** X12: full connection is final: once a row of the log holds
    [max_cluster_size = 1], every later row of the run holds 1 as well. *)
Theorem full_share_stays (params : Params) (gen : nat → nat * nat) (k : nat)
    (m : ButtonModel) (i j : nat) (r1 r2 : Row) :
  run params gen k = Py.Ok m → (i ≤ j)%nat →
  log m !! i = Some r1 → log m !! j = Some r2 →
  (max_cluster_size r1 == 1)%Q → (max_cluster_size r2 == 1)%Q.
Proof.
  intros Hrun Hij H1 H2 Hfull.
  destruct (run_model_inv params gen k m Hrun) as [_ Hn].
  destruct (run_inv_exists params gen k m Hrun) as [B HB].
  pose proof (log_sorted m (run_log _ _ _ _ _ HB) i j r1 r2 Hij H1 H2) as Hle.
  destruct (run_rows params gen k m Hrun r2) as (M & HM & Heq).
  { by eapply list_elem_of_lookup_2. }
  apply Qle_antisym.
  - rewrite Heq.
    assert (inject_Z (n params) / inject_Z (n params) == 1)%Q as <-
      by by apply ratio_unit.
    apply ratio_le; lia.
  - by rewrite <- Hfull.
Qed.

Lemma full_share_stays_witness :
  ∃ m r1 r2, run two_buttons stuck 2 = Py.Ok m ∧
    log m !! 1%nat = Some r1 ∧ log m !! 2%nat = Some r2 ∧
    (max_cluster_size r1 == 1)%Q ∧ (max_cluster_size r2 == 1)%Q.
Proof.
  eexists _, _, _.
  match goal with
  | |- ?R ∧ ?L1 ∧ ?L2 ∧ ?F ∧ _ =>
      assert (HR : R) by (vm_compute; reflexivity);
      assert (HL1 : L1) by (vm_compute; reflexivity);
      assert (HL2 : L2) by (vm_compute; reflexivity);
      assert (HF : F) by (vm_compute; reflexivity)
  end.
  split; [exact HR|]. split; [exact HL1|]. split; [exact HL2|]. split; [exact HF|].
  refine (full_share_stays two_buttons stuck 2 _ 1 2 _ _ HR _ HL1 HL2 HF). lia.
Defined.

(** ** The loop bound and the floor of the product *)

Section bound_facts.
Implicit Types (m : ButtonModel) (params : Params).

Lemma Qfloor_ratio (a D : Z) : 0 < D → Qfloor (inject_Z a / inject_Z D) = a / D.
Proof.
  intros HD. destruct D as [|d|d]; [lia| |lia].
  unfold Qdiv, Qinv, Qmult, inject_Z, Qfloor. simpl. by rewrite Z.mul_1_r.
Qed.

(** [int(x)] is the floor of a number that is not negative, and is not
    positive for a negative one. *)
Lemma int_floor (x : Py.number) (q : Q) :
  Py.value x = Some q →
  ∃ bound, Py.int x = Py.Ok bound ∧
    Z.max 0 bound = Z.max 0 (Qfloor q) ∧ ((0 <= q)%Q → bound = Qfloor q).
Proof.
  destruct x as [z|[s|s| |s mant e]]; simpl; try done.
  - intros [= <-]. exists z. rewrite Qfloor_Z. done.
  - intros [= <-]. exists 0. done.
  - intros [= <-]. eexists. split; [done|].
    destruct e as [|e|e]; unfold Py.trunc_mantissa.
    + rewrite Qfloor_Z. destruct s; simpl; split; intros; lia.
    + rewrite Qfloor_Z. destruct s; simpl; split; intros; lia.
    + assert (HD : 0 < 2 ^ Z.pos e) by (apply Z.pow_pos_nonneg; lia).
      rewrite Qfloor_ratio by done.
      destruct s; simpl; [|done].
      assert (0 ≤ Z.pos mant / 2 ^ Z.pos e) by (apply Z.div_pos; lia).
      assert (Z.neg mant / 2 ^ Z.pos e < 0) by (apply Z.div_lt_upper_bound; lia).
      split; [lia|]. intros Hq%Qfloor_resp_le.
      rewrite Qfloor_ratio in Hq by done. simpl in Hq.
      change (Z.neg mant) with (- Z.pos mant) in *. rewrite Zdiv_0_l in Hq. lia.
Qed.

(** The loop bound is the floor of the product the program computes. *)
Lemma loop_bound_floor params (q : Q) :
  rounded_product params = Some q →
  ∃ bound, loop_bound params = Py.Ok bound ∧
    Z.max 0 bound = Z.max 0 (Qfloor q) ∧ ((0 <= q)%Q → bound = Qfloor q).
Proof.
  unfold rounded_product, loop_bound.
  destruct (Py.mul_int (n params) (speed params)) as [x|]; simpl; [|done].
  apply int_floor.
Qed.

Lemma value_finite_nonneg (mant : positive) (e : Z) (q : Q) :
  Py.value (Py.Float (S754_finite false mant e)) = Some q → (0 <= q)%Q.
Proof.
  simpl. intros [= <-]. destruct e as [|e|e].
  - change 0%Q with (inject_Z 0). rewrite <- Zle_Qle. lia.
  - change 0%Q with (inject_Z 0). rewrite <- Zle_Qle.
    assert (0 < 2 ^ Z.pos e) by (apply Z.pow_pos_nonneg; lia). lia.
  - assert (HD : 0 < 2 ^ Z.pos e) by (apply Z.pow_pos_nonneg; lia).
    apply Qmult_le_0_compat.
    + change 0%Q with (inject_Z 0). rewrite <- Zle_Qle. lia.
    + apply Qinv_le_0_compat. change 0%Q with (inject_Z 0). rewrite <- Zle_Qle. lia.
Qed.

(** With [n ≥ 1] and [speed >= 0] the product the program computes is not
    negative. *)
Lemma rounded_product_nonneg params (q : Q) :
  1 ≤ n params → Py.nonneg (speed params) = true →
  rounded_product params = Some q → (0 <= q)%Q.
Proof.
  intros Hn Hs. unfold rounded_product, Py.mul_int.
  destruct (speed params) as [z|f] eqn:E.
  - simpl. intros [= <-]. simpl in Hs. apply Z.leb_le in Hs.
    change 0%Q with (inject_Z 0). rewrite <- Zle_Qle. lia.
  - destruct (Py.float_of_int (n params)) as [fx|] eqn:Efx; simpl; [|done].
    pose proof (float_of_int_sign _ _ Hn Efx) as Hfx.
    destruct fx as [sx|sx| |sx mx ex], f as [sy|sy| |sy my ey]; simpl in *;
      try done; try (intros [= <-]; apply Qle_refl).
    subst sx. destruct sy; [done|]. simpl.
    pose proof (binary_round_aux_sign false (Z.pos (mx * my)) (ex + ey) loc_Exact) as Hsign.
    destruct (binary_round_aux _ _ _ _ _ _) as [s|s| |s mant e] eqn:Er; try done.
    + intros [= <-]. apply Qle_refl.
    + subst s. apply value_finite_nonneg.
Qed.

(** For an integer speed the program computes the product exactly. *)
Lemma rounded_product_int params (z : Z) :
  speed params = Py.Int z → rounded_product params = exact_product params.
Proof. intros Hs. unfold rounded_product, exact_product, Py.mul_int. by rewrite Hs. Qed.

(** The first thread of a run ties two buttons that were not tied. *)
Lemma first_step_adds_an_edge params gen bound m0 m1 :
  2 ≤ n params → loop_bound params = Py.Ok bound → 1 ≤ bound →
  run params gen 0 = Py.Ok m0 → step m0 = Py.Ok m1 →
  Nx.number_of_edges (buttons m0) = 0%nat ∧
  (1 ≤ Nx.number_of_edges (buttons m1))%nat.
Proof.
  intros Hn Hb Hpos Hrun Hstep.
  destruct (run_model_inv params gen 0 m0 Hrun) as [Hinv _].
  assert (Hiso : ∀ u, Nx.neighbors (buttons m0) u = ∅).
  { unfold run in Hrun.
    destruct (update (setup params gen)) as [m|] eqn:E0; simpl in Hrun; [|done].
    injection Hrun as <-.
    destruct (update_row params _ m (setup_inv params gen) E0) as (M & _ & _ & -> & _).
    apply setup_isolated. }
  pose proof (isolated_no_edges _ Hiso) as H0. split; [done|].
  unfold step in Hstep. rewrite (inv_p _ _ Hinv), Hb in Hstep. simpl in Hstep.
  unfold Py.range in Hstep. destruct (Z.to_nat bound) as [|c] eqn:Ec; [lia|].
  simpl in Hstep.
  destruct (add_thread m0) as [ma|] eqn:Ea; simpl in Hstep; [|done].
  destruct (add_thread_spec params m0 Hinv Hn) as (u & v & Hs & _ & _ & _ & _).
  pose proof (add_thread_edges params m0 ma u v Hinv Hs Ea) as He.
  assert (Nx.has_edge (buttons m0) u v = false) as Hno.
  { unfold Nx.has_edge. rewrite Hiso. by apply bool_decide_eq_false_2. }
  rewrite Hno, H0 in He.
  destruct (add_thread_inv params m0 ma Hinv Ea) as [Hinva _].
  destruct (repeat_body_edges params c ma m1 Hinva Hstep) as [Hmono _]. lia.
Qed.

End bound_facts.

Section step_facts.
Implicit Types (m : ButtonModel) (params : Params).

(** A loop bound that is defined comes from a finite product. *)
Lemma loop_bound_product params bound :
  loop_bound params = Py.Ok bound → ∃ q, rounded_product params = Some q.
Proof.
  unfold loop_bound, rounded_product.
  destruct (Py.mul_int (n params) (speed params)) as [[z|[s|s| |s mant e]]|];
    simpl; try done; eauto.
Qed.

(** What one [step] does to the counter and to the graph, in terms of the
    product the program computes. *)
Lemma step_floor params m m' (q : Q) :
  model_inv params m → rounded_product params = Some q → step m = Py.Ok m' →
  threads m' = threads m + Z.max 0 (Qfloor q) ∧
  Z.of_nat (Nx.number_of_edges (buttons m)) ≤ Z.of_nat (Nx.number_of_edges (buttons m')) ∧
  Z.of_nat (Nx.number_of_edges (buttons m')) ≤
    Z.of_nat (Nx.number_of_edges (buttons m)) + Z.max 0 (Qfloor q).
Proof.
  intros Hinv Hq Hstep.
  destruct (loop_bound_floor params q Hq) as (bound & Hb & Hmax & _).
  destruct (step_inv params bound m m' Hinv Hb Hstep) as (_ & Ht & _).
  assert (HB : Z.of_nat (Py.range bound) = Z.max 0 bound) by (unfold Py.range; lia).
  unfold step in Hstep. rewrite (inv_p _ _ Hinv), Hb in Hstep. simpl in Hstep.
  destruct (repeat_body_edges params _ m m' Hinv Hstep). lia.
Qed.

(** After [k] time-steps the counter is [k] times the floor of the product
    the program computes, or 0 when that floor is negative. *)
Lemma run_threads_floor params gen (k : nat) m (q : Q) :
  run params gen k = Py.Ok m → rounded_product params = Some q →
  run_inv params gen (Z.max 0 (Qfloor q)) k m.
Proof.
  intros Hrun Hq.
  destruct (loop_bound_floor params q Hq) as (bound & Hb & Hmax & _).
  pose proof (run_spec params gen bound k m Hb Hrun) as Hinv.
  replace (Z.of_nat (Py.range bound)) with (Z.max 0 (Qfloor q)) in Hinv
    by (unfold Py.range; lia).
  done.
Qed.

(** The last time-step of a run, taken apart. *)
Lemma run_last_step params gen (k : nat) m :
  run params gen (S k) = Py.Ok m →
  ∃ m0 ms, run params gen k = Py.Ok m0 ∧ step m0 = Py.Ok ms ∧ update ms = Py.Ok m.
Proof.
  unfold run. destruct (update (setup params gen)) as [ma|]; simpl; [|done].
  destruct (sim_steps k ma) as [m0|]; simpl; [|done].
  destruct (step m0) as [ms|] eqn:Es; simpl; [|done].
  intros Hu. by exists m0, ms.
Qed.

End step_facts.

(** ** The claims on the floor of the product *)

(** C9, counterexample: with [n = 3] and [speed = 0.3333333333333333] the
    product [n * speed] lies in [[0, 1)], yet the program rounds it to
    [1.0]: the loop bound is 1 and the first [step] adds a thread and an
    edge. *)
Lemma rounded_product_reaches_one :
  ∃ (q : Q) (m0 m1 : ButtonModel),
    1 ≤ n three_thirds ∧
    exact_product three_thirds = Some q ∧ (0 <= q)%Q ∧ (q < 1)%Q ∧
    loop_bound three_thirds = Py.Ok 1 ∧
    run three_thirds stuck 0 = Py.Ok m0 ∧ step m0 = Py.Ok m1 ∧
    threads m0 = 0 ∧ threads m1 = 1 ∧
    Nx.number_of_edges (buttons m0) = 0%nat ∧
    Nx.number_of_edges (buttons m1) = 1%nat.
Proof.
  eexists _, _, _.
  split; [simpl; lia|].
  split; [vm_compute; reflexivity|].
  split; [vm_compute; discriminate|].
  split; [vm_compute; reflexivity|].
  split; [vm_compute; reflexivity|].
  split; [vm_compute; reflexivity|].
  split; [vm_compute; reflexivity|].
  split; [vm_compute; reflexivity|].
  split; [vm_compute; reflexivity|].
  split; vm_compute; reflexivity.
Qed.

(** C8, counterexample: the increase of a step is not the floor of the
    product [n * speed].  With [n = 3] and [speed = 0.3333333333333333]
    that floor is 0 and a step adds 1; with [n = 10] and [speed = -3] it
    is -30 and a step adds nothing. *)
Lemma step_increase_differs_from_floor :
  (∃ (q : Q) (m0 m1 : ButtonModel),
     Py.nonneg (speed three_thirds) = true ∧
     exact_product three_thirds = Some q ∧ Qfloor q = 0 ∧
     run three_thirds stuck 0 = Py.Ok m0 ∧ step m0 = Py.Ok m1 ∧
     threads m1 = threads m0 + 1) ∧
  (∃ (q : Q) (m0 m1 : ButtonModel),
     exact_product ten_backwards = Some q ∧ Qfloor q = -30 ∧
     run ten_backwards stuck 0 = Py.Ok m0 ∧ step m0 = Py.Ok m1 ∧
     threads m1 = threads m0).
Proof.
  split.
  - eexists _, _, _.
    split; [reflexivity|].
    split; [vm_compute; reflexivity|].
    split; [vm_compute; reflexivity|].
    split; [vm_compute; reflexivity|].
    split; [vm_compute; reflexivity|].
    vm_compute. reflexivity.
  - eexists _, _, _.
    split; [vm_compute; reflexivity|].
    split; [vm_compute; reflexivity|].
    split; [vm_compute; reflexivity|].
    split; [vm_compute; reflexivity|].
    vm_compute. reflexivity.
Qed.

(** C8, amended: in every run the [threads] counter is an integer that
    never decreases: it is 0 after [setup], every iteration of the loop
    of [step] adds one edge and adds one to it, [update] leaves it alone,
    and every [step] that completes adds [max(0, floor(x))] to it, where
    [x] is the product [n * speed] as the program computes it (rounded to
    the nearest binary64 when [speed] is a [float], exact when it is an
    [int]); after [k] time-steps it is [k] times that number, and of two
    points of a run the later one has the greater or equal count.  With
    [n ≥ 1] and [speed >= 0] the floor is not negative. *)
Theorem threads_counter_monotone (params : Params) (gen : nat → nat * nat) :
  threads (setup params gen) = 0 ∧
  (∀ m m', add_thread m = Py.Ok m' →
     threads m' = threads m + 1 ∧
     ∃ u v, buttons m' = Nx.add_edge (buttons m) u v) ∧
  (∀ (k : nat) m m', run params gen k = Py.Ok m → step m = Py.Ok m' →
     ∃ q, rounded_product params = Some q ∧
       threads m' = threads m + Z.max 0 (Qfloor q)) ∧
  (∀ (k : nat) m m', run params gen k = Py.Ok m → update m = Py.Ok m' →
     threads m' = threads m) ∧
  (∀ (k : nat) m q, run params gen k = Py.Ok m → rounded_product params = Some q →
     threads m = Z.of_nat k * Z.max 0 (Qfloor q)) ∧
  (∀ (i j : nat) mi mj, (i ≤ j)%nat →
     run params gen i = Py.Ok mi → run params gen j = Py.Ok mj →
     0 ≤ threads mi ≤ threads mj) ∧
  (∀ z, speed params = Py.Int z → rounded_product params = exact_product params) ∧
  (∀ q, 1 ≤ n params → Py.nonneg (speed params) = true →
     rounded_product params = Some q → Z.max 0 (Qfloor q) = Qfloor q).
Proof.
  assert (Hk : ∀ (k : nat) m q, run params gen k = Py.Ok m →
               rounded_product params = Some q →
               threads m = Z.of_nat k * Z.max 0 (Qfloor q)).
  { intros k m q Hrun Hq. apply (run_threads_floor params gen k m q Hrun Hq). }
  split; [done|]. split; [|split; [|split; [|split; [|split; [|split]]]]].
  - intros m m'. unfold add_thread.
    destruct (Ap.sample2 _ _) as [[u v]|]; [|done]. intros [= <-]. simpl. eauto.
  - intros k m m' [Hinv _]%run_model_inv Hm'.
    destruct (step_loop_bound params m m' Hinv Hm') as [bound Hb].
    destruct (loop_bound_product params bound Hb) as [q Hq].
    exists q. split; [done|].
    by destruct (step_floor params m m' q Hinv Hq Hm') as [? _].
  - intros k m m' [Hinv _]%run_model_inv Hm'.
    by destruct (update_model_inv params m m' Hinv Hm') as (_ & _ & ? & _).
  - exact Hk.
  - intros i j mi mj Hij Hi Hj. destruct j as [|j].
    + assert (i = 0%nat) as -> by lia. rewrite Hi in Hj. injection Hj as <-.
      destruct (run_inv_exists params gen 0 mi Hi) as [per Hinv].
      rewrite (run_threads _ _ _ _ _ Hinv). lia.
    + destruct (run_loop_bound params gen j mj Hj) as [bound Hb].
      destruct (loop_bound_product params bound Hb) as [q Hq].
      rewrite (Hk i mi q Hi Hq), (Hk (S j) mj q Hj Hq). nia.
  - apply rounded_product_int.
  - intros q Hn Hs Hq.
    pose proof (rounded_product_nonneg params q Hn Hs Hq) as H0%Qfloor_resp_le.
    change (Qfloor 0) with 0 in H0. lia.
Qed.

Lemma threads_counter_monotone_witness :
  ∃ q m, rounded_product ten_half = Some q ∧ Qfloor q = 5 ∧
    run ten_half spread 2 = Py.Ok m ∧ threads m = Z.of_nat 2 * Z.max 0 (Qfloor q).
Proof.
  eexists _, _.
  match goal with
  | |- ?P ∧ _ ∧ ?R ∧ _ =>
      assert (HP : P) by (vm_compute; reflexivity);
      assert (HR : R) by (vm_compute; reflexivity)
  end.
  split; [exact HP|]. split; [vm_compute; reflexivity|]. split; [exact HR|].
  destruct (threads_counter_monotone ten_half spread) as (_ & _ & _ & _ & Hk & _).
  exact (Hk 2%nat _ _ HR HP).
Defined.

(** C1, counterexample: with [n = 3] and [speed = 0.3333333333333333] the
    floor of the product [n * speed] is 0, so that [k * floor(n * speed) / n]
    is 0, yet the value recorded after one step is 1/3.  And with [n = 10]
    and [speed = 0.5] a step whose draws repeat one pair counts 5 threads
    but leaves a graph of one edge. *)
Lemma recorded_ratio_differs_from_floor :
  (∃ (q : Q) (m : ButtonModel) (row : Row),
     1 ≤ n three_thirds ∧ Py.nonneg (speed three_thirds) = true ∧
     exact_product three_thirds = Some q ∧ Qfloor q = 0 ∧
     run three_thirds stuck 1 = Py.Ok m ∧ log m !! 1%nat = Some row ∧
     (threads_to_button row == 1 # 3)%Q ∧
     (inject_Z (Z.of_nat 1 * Qfloor q) / inject_Z (n three_thirds) == 0)%Q) ∧
  (∃ m : ButtonModel,
     run ten_half stuck 1 = Py.Ok m ∧ threads m = 5 ∧
     Nx.number_of_edges (buttons m) = 1%nat).
Proof.
  split.
  - eexists _, _, _.
    split; [simpl; lia|].
    split; [reflexivity|].
    split; [vm_compute; reflexivity|].
    split; [vm_compute; reflexivity|].
    split; [vm_compute; reflexivity|].
    split; [vm_compute; reflexivity|].
    split; vm_compute; reflexivity.
  - eexists.
    split; [vm_compute; reflexivity|].
    split; vm_compute; reflexivity.
Qed.

(** C1, amended: with [n ≥ 1] and [speed >= 0], write [x] for the product
    [n * speed] as the program computes it (rounded to the nearest binary64
    when [speed] is a [float]).  After [k] completed time-steps the
    recorded [threads_to_button] is [k * floor(x) / n], and the run does
    complete when there are two buttons or more.  In particular, with
    [n = 10] and [speed = 0.5] the product is 5 without rounding, every
    step adds 5 threads, of which between 0 and 5 are new edges of the
    graph (between 1 and 5 in the first step), and the value recorded
    after step 1 is 0.5, whatever the draws. *)
Theorem threads_to_button_after_steps :
  (∀ (params : Params) (gen : nat → nat * nat) (q : Q) (k : nat),
     1 ≤ n params → Py.nonneg (speed params) = true →
     rounded_product params = Some q →
     0 ≤ Qfloor q ∧
     (2 ≤ n params → ∃ m, run params gen k = Py.Ok m) ∧
     ∀ m, run params gen k = Py.Ok m →
       length (log m) = S k ∧
       threads m = Z.of_nat k * Qfloor q ∧
       ∃ row, log m !! k = Some row ∧
         threads_to_button row =
           (inject_Z (Z.of_nat k * Qfloor q) / inject_Z (n params))%Q) ∧
  (∀ gen : nat → nat * nat,
     (∃ q q', rounded_product ten_half = Some q ∧ exact_product ten_half = Some q' ∧
        (q == 5)%Q ∧ (q' == 5)%Q) ∧
     (∀ (k : nat) m m', run ten_half gen k = Py.Ok m → step m = Py.Ok m' →
        threads m' = threads m + 5 ∧
        (Nx.number_of_edges (buttons m) ≤ Nx.number_of_edges (buttons m')
           ≤ Nx.number_of_edges (buttons m) + 5)%nat) ∧
     ∃ m0 ms m1 row,
       run ten_half gen 0 = Py.Ok m0 ∧ step m0 = Py.Ok ms ∧
       update ms = Py.Ok m1 ∧ run ten_half gen 1 = Py.Ok m1 ∧
       threads m0 = 0 ∧ threads m1 = 5 ∧
       Nx.number_of_edges (buttons m0) = 0%nat ∧
       (1 ≤ Nx.number_of_edges (buttons m1) ≤ 5)%nat ∧
       log m1 !! 1%nat = Some row ∧ (threads_to_button row == 1 # 2)%Q).
Proof.
  assert (Hgen : ∀ params gen (q : Q) (k : nat),
    1 ≤ n params → Py.nonneg (speed params) = true →
    rounded_product params = Some q →
    0 ≤ Qfloor q ∧
    ∀ m, run params gen k = Py.Ok m →
      length (log m) = S k ∧ threads m = Z.of_nat k * Qfloor q ∧
      ∃ row, log m !! k = Some row ∧
        threads_to_button row =
          (inject_Z (Z.of_nat k * Qfloor q) / inject_Z (n params))%Q).
  { intros params gen q k Hn Hs Hq.
    pose proof (rounded_product_nonneg params q Hn Hs Hq) as H0%Qfloor_resp_le.
    change (Qfloor 0) with 0 in H0. split; [done|].
    intros m Hrun.
    pose proof (run_threads_floor params gen k m q Hrun Hq) as Hinv.
    replace (Z.max 0 (Qfloor q)) with (Qfloor q) in Hinv by lia.
    split; [apply Hinv|]. split; [apply Hinv|].
    destruct (lookup_lt_is_Some_2 (log m) k) as [row Hrow].
    { rewrite (run_length _ _ _ _ _ Hinv). lia. }
    exists row. split; [done|]. by apply (run_ratio _ _ _ _ _ Hinv). }
  split.
  - intros params gen q k Hn Hs Hq.
    destruct (Hgen params gen q k Hn Hs Hq) as [H0 Hrows].
    split; [done|]. split; [|done].
    intros Hn2. destruct (loop_bound_floor params q Hq) as (bound & Hb & _).
    apply (run_ok params gen bound k Hn Hb). by left.
  - intros gen.
    assert (Hn : 1 ≤ n ten_half) by (simpl; lia).
    assert (Hb : loop_bound ten_half = Py.Ok 5) by (vm_compute; reflexivity).
    destruct (rounded_product ten_half) as [q|] eqn:Hq; [|by vm_compute in Hq].
    assert (Hq5 : (q == 5)%Q).
    { vm_compute in Hq. injection Hq as <-. vm_compute. reflexivity. }
    assert (Hf : Qfloor q = 5) by (rewrite Hq5; reflexivity).
    split.
    { exists q. eexists. split; [done|]. split; [reflexivity|]. split; [done|].
      vm_compute. reflexivity. }
    split.
    { intros k m m' Hrun Hstep.
      destruct (run_model_inv ten_half gen k m Hrun) as [Hinv _].
      destruct (step_floor ten_half m m' q Hinv Hq Hstep) as (Ht & He1 & He2).
      rewrite Hf in Ht, He2. lia. }
    destruct (run_ok ten_half gen 5 1 Hn Hb) as [m1 H1]; [left; simpl; lia|].
    destruct (run_last_step ten_half gen 0 m1 H1) as (m0 & ms & H0 & Hs & Hu).
    destruct (Hgen ten_half gen q 0%nat Hn eq_refl Hq) as [_ Hrow0].
    destruct (Hrow0 m0 H0) as (_ & Ht0 & _).
    destruct (Hgen ten_half gen q 1%nat Hn eq_refl Hq) as [_ Hrow1].
    destruct (Hrow1 m1 H1) as (_ & Ht1 & row & Hrow & Hval).
    rewrite Hf in Ht1, Hval.
    destruct (first_step_adds_an_edge ten_half gen 5 m0 ms) as [He0 He1];
      [simpl; lia|done|lia|done|done|].
    destruct (run_model_inv ten_half gen 0 m0 H0) as [Hinv0 _].
    destruct (step_floor ten_half m0 ms q Hinv0 Hq Hs) as (_ & _ & He2).
    destruct (step_inv ten_half 5 m0 ms Hinv0 Hb Hs) as (Hinvs & _).
    destruct (update_row ten_half ms m1 Hinvs Hu) as (M & _ & _ & HG & _).
    rewrite Hf, He0 in He2.
    exists m0, ms, m1, row. rewrite HG.
    split; [done|]. split; [done|]. split; [done|]. split; [done|].
    split; [lia|]. split; [lia|]. split; [done|]. split; [lia|].
    split; [done|]. by rewrite Hval.
Qed.

Lemma threads_to_button_after_steps_witness :
  ∃ q, 1 ≤ n ten_half ∧ Py.nonneg (speed ten_half) = true ∧
    rounded_product ten_half = Some q ∧ Qfloor q = 5 ∧
    ∃ m row, run ten_half spread 2 = Py.Ok m ∧ log m !! 2%nat = Some row ∧
      threads_to_button row = (inject_Z (Z.of_nat 2 * Qfloor q) / inject_Z 10)%Q.
Proof.
  assert (H1 : 1 ≤ n ten_half) by (simpl; lia).
  assert (H2 : Py.nonneg (speed ten_half) = true) by reflexivity.
  eexists.
  split; [exact H1|]. split; [exact H2|].
  match goal with
  | |- ?P ∧ _ =>
      assert (HP : P) by (vm_compute; reflexivity)
  end.
  split; [exact HP|]. split; [vm_compute; reflexivity|].
  destruct (proj1 threads_to_button_after_steps ten_half spread _ 2%nat H1 H2 HP)
    as (_ & Hok & Hval).
  destruct Hok as [m Hm]; [simpl; lia|].
  destruct (Hval m Hm) as (_ & _ & row & Hrow & Hratio).
  exists m, row. split; [exact Hm|]. split; [exact Hrow|exact Hratio].
Defined.
